(** * Native audio bridge and recording store: a shallow embedding

    The development follows three source files of the application:

    - [app/public/native-audio-processor.js]: the AudioWorklet processor
      holding the ring buffer (module [NativeAudioProcessor]);
    - the zustand recording store, [useRecordingStore]
      (module [RecordingStore]);
    - [app/src/lib/nativeAudio.ts]: the bridge between the native capture
      and the worklet (module [NativeAudioBridge]).

    JavaScript objects are mutable, so every operation is a function from
    the object's fields before the call to a completion (normal return or
    thrown exception) paired with the fields after the call. *)

From Stdlib Require Import String.
From Stdlib Require Import List Arith ZArith Lia Bool.
Import ListNotations.

Set Implicit Arguments.
Set Warnings "-abstract-large-number".

(** ** JavaScript completions and typed arrays *)

Module Js.

Inductive Error : Type :=
| RangeError
| TypeError
| HostError (message : string).

(** A call either returns a value or throws. *)
Inductive completion (A : Type) : Type :=
| Normal (value : A)
| Throw (error : Error).

Arguments Throw {A} error.

(** [a.subarray(begin, end)] for indices that are natural numbers: both
    ends are clamped to the length of [a], and an end before the
    beginning gives the empty view. *)
Definition subarray {A : Type} (a : list A) (begin_ end_ : nat) : list A :=
  firstn (end_ - begin_) (skipn begin_ a).

(** [a.subarray(begin)]. *)
Definition subarray_from {A : Type} (a : list A) (begin_ : nat) : list A :=
  skipn begin_ a.

(** [target.set(source, offset)]: a bulk copy which throws a RangeError,
    and copies nothing, when the source does not fit behind [offset]. *)
Definition set {A : Type} (target source : list A) (offset : nat)
  : completion (list A) :=
  if length target <? offset + length source
  then Throw RangeError
  else Normal (firstn offset target ++ source
                 ++ skipn (offset + length source) target).

(** [target.fill(v)]. *)
Definition fill {A : Type} (target : list A) (v : A) : list A :=
  map (fun _ => v) target.

(** *** Code that threads mutable state and may throw

    [M S A] is a computation over the mutable state [S] which returns an
    [A] or throws; the state reached before a throw is kept, as an
    exception does not undo assignments. *)
Definition M (S A : Type) : Type := S -> completion A * S.

Definition ret {S A : Type} (a : A) : M S A := fun s => (Normal a, s).

Definition throw {S A : Type} (e : Error) : M S A := fun s => (Throw e, s).

Definition bind {S A B : Type} (m : M S A) (k : A -> M S B) : M S B :=
  fun s =>
    match m s with
    | (Normal a, s') => k a s'
    | (Throw e, s') => (Throw e, s')
    end.

(** [try { body } catch (error) { handler }]. *)
Definition try_catch {S A : Type} (body : M S A) (handler : Error -> M S A)
  : M S A :=
  fun s =>
    match body s with
    | (Normal a, s') => (Normal a, s')
    | (Throw e, s') => handler e s'
    end.

Definition gets {S A : Type} (f : S -> A) : M S A :=
  fun s => (Normal (f s), s).

Definition modify {S : Type} (f : S -> S) : M S unit :=
  fun s => (Normal tt, f s).

Declare Scope js_scope.
Delimit Scope js_scope with js.

Notation "x <- m ;; k" := (bind m (fun x => k))
  (at level 61, m at next level, right associativity) : js_scope.
Notation "m ;;; k" := (bind m (fun _ => k))
  (at level 61, right associativity) : js_scope.

End Js.

(** ** The AudioWorklet processor and its ring buffer *)

Module NativeAudioProcessor.
Import Js.

Section Processor.

(** Samples are the values a [Float32Array] holds; [zero] is the
    sample [0] a fresh array is filled with. *)
Variable sample : Type.
Variable zero : sample.

(** The fields assigned in the constructor. The size, the two indices
    and the count are integers which never become negative; they are
    natural numbers here. A difference [a - b] is taken by the code only
    where [b <= a] as long as the fields are well formed ([wf] below),
    and [%] is applied to a positive size. *)
Record t : Type := mk {
  bufferSize : nat;
  buffer : list sample;
  writeIndex : nat;
  readIndex : nat;
  availableSamples : nat
}.

(** The constructor, with the size of the buffer left open. *)
Definition create (size : nat) : t :=
  {| bufferSize := size;
     buffer := repeat zero size;
     writeIndex := 0;
     readIndex := 0;
     availableSamples := 0 |}.

(** [new NativeAudioProcessor()]: [this.bufferSize = 4800]. *)
Definition constructor : t := create 4800.

(** [event.data] of a port message. *)
Record MessageData : Type := mkData {
  type : string;
  samples : list sample
}.

Definition audio_data (chunk : list sample) : MessageData :=
  {| type := "audio-data"; samples := chunk |}.

Definition with_buffer (this : t) (b : list sample) : t :=
  {| bufferSize := bufferSize this;
     buffer := b;
     writeIndex := writeIndex this;
     readIndex := readIndex this;
     availableSamples := availableSamples this |}.

(** [this.port.onmessage]: the write side of the ring buffer. *)
Definition onmessage (data : MessageData) (this : t)
  : completion unit * t :=
  if String.eqb (type data) "audio-data" then
    let samples := samples data in
    let len := length samples in
    let firstPart := Nat.min len (bufferSize this - writeIndex this) in
    match set (buffer this) (subarray samples 0 firstPart)
              (writeIndex this) with
    | Throw e => (Throw e, this)
    | Normal b1 =>
        match (if firstPart <? len
               then set b1 (subarray_from samples firstPart) 0
               else Normal b1) with
        | Throw e => (Throw e, with_buffer this b1)
        | Normal b2 =>
            (Normal tt,
             {| bufferSize := bufferSize this;
                buffer := b2;
                writeIndex :=
                  (writeIndex this + len) mod bufferSize this;
                readIndex := readIndex this;
                availableSamples :=
                  Nat.min (availableSamples this + len)
                          (bufferSize this) |})
        end
    end
  else (Normal tt, this).

(** The [outputs] argument of [process]: outputs, each a list of
    channels, each a [Float32Array]. *)
Definition Outputs : Type := list (list (list sample)).

(** Store [channel] back as [outputs[0][0]] (the arrays are shared
    with the caller, who sees what [process] wrote). *)
Definition put_channel (outputs : Outputs) (channel : list sample)
  : Outputs :=
  match outputs with
  | (_ :: channels) :: rest => (channel :: channels) :: rest
  | _ => outputs
  end.

(** The body of [process], with the frame size left open. The result
    is the completion, the outputs as the caller sees them afterwards,
    and the processor's fields. *)
Definition process_frame (frameSize : nat) (outputs : Outputs) (this : t)
  : completion bool * Outputs * t :=
  match nth_error outputs 0 with
  | None => (Throw TypeError, outputs, this)
  | Some output =>
      match nth_error output 0 with
      | None => (Normal true, outputs, this)
      | Some channel =>
          if frameSize <=? availableSamples this then
            let firstPart :=
              Nat.min frameSize (bufferSize this - readIndex this) in
            match set channel
                      (subarray (buffer this) (readIndex this)
                                (readIndex this + firstPart)) 0 with
            | Throw e => (Throw e, outputs, this)
            | Normal c1 =>
                match (if firstPart <? frameSize
                       then set c1 (subarray (buffer this) 0
                                             (frameSize - firstPart))
                                firstPart
                       else Normal c1) with
                | Throw e => (Throw e, put_channel outputs c1, this)
                | Normal c2 =>
                    (Normal true, put_channel outputs c2,
                     {| bufferSize := bufferSize this;
                        buffer := buffer this;
                        writeIndex := writeIndex this;
                        readIndex :=
                          (readIndex this + frameSize)
                            mod bufferSize this;
                        availableSamples :=
                          availableSamples this - frameSize |})
                end
            end
          else (Normal true, put_channel outputs (fill channel zero),
                this)
      end
  end.

(** [process(_inputs, outputs, _parameters)]: [frameSize = 128]. *)
Definition process : Outputs -> t -> completion bool * Outputs * t :=
  process_frame 128.

(** *** Derived operations used to state the properties *)

(** One render quantum: the engine hands [process] a single mono output
    of [frameSize] zeroed samples and takes what was written to it. *)
Definition pull (frameSize : nat) (this : t)
  : completion (list sample) * t :=
  match process_frame frameSize [[repeat zero frameSize]] this with
  | (Normal _, outputs, this') =>
      (Normal (nth 0 (nth 0 outputs []) []), this')
  | (Throw e, _, this') => (Throw e, this')
  end.

(** [n] render quanta in a row; the frames are concatenated. *)
Fixpoint pulls (frameSize n : nat) (this : t)
  : completion (list sample) * t :=
  match n with
  | 0 => (Normal [], this)
  | S n' =>
      match pull frameSize this with
      | (Normal frame, this1) =>
          match pulls frameSize n' this1 with
          | (Normal frames, this2) => (Normal (frame ++ frames), this2)
          | (Throw e, this2) => (Throw e, this2)
          end
      | (Throw e, this1) => (Throw e, this1)
      end
  end.

(** A run of [audio-data] messages. The port delivers every message:
    an exception thrown by one call of the handler does not prevent
    the next call. The completions of all calls are kept. *)
Fixpoint deliver (chunks : list (list sample)) (this : t)
  : list (completion unit) * t :=
  match chunks with
  | [] => ([], this)
  | chunk :: rest =>
      let '(c, this1) := onmessage (audio_data chunk) this in
      let '(cs, this2) := deliver rest this1 in
      (c :: cs, this2)
  end.

(** The fields are well formed: what the constructor establishes and
    both operations maintain. *)
Definition wf (this : t) : Prop :=
  0 < bufferSize this /\
  length (buffer this) = bufferSize this /\
  writeIndex this < bufferSize this /\
  readIndex this < bufferSize this /\
  availableSamples this <= bufferSize this.

(** *** The processor between its producer and its consumer *)

(** What is buffered for the reader: the [availableSamples] samples
    from [readIndex] on, around the end of the buffer. *)
Definition contents (this : t) : list sample :=
  map (fun i => nth ((readIndex this + i) mod bufferSize this)
                    (buffer this) zero)
      (seq 0 (availableSamples this)).

(** The calls the processor receives: a port message, or [process] for
    one render quantum. *)
Inductive Event : Type :=
| Message (data : MessageData)
| Render (outputs : Outputs).

Definition handle (frameSize : nat) (e : Event) (this : t) : t :=
  match e with
  | Message data => snd (onmessage data this)
  | Render outputs => snd (process_frame frameSize outputs this)
  end.

(** The processor after a run of calls, whatever their completions. *)
Definition handle_all (frameSize : nat) (es : list Event) (this : t) : t :=
  fold_left (fun this e => handle frameSize e this) es this.

(** A producer writing chunks and a consumer reading frames. *)
Inductive Op : Type :=
| Write (chunk : list sample)
| Read.

(** The frames the consumer receives over a run; the run ends at the
    first call that throws. *)
Fixpoint serve (frameSize : nat) (ops : list Op) (this : t)
  : completion (list (list sample)) * t :=
  match ops with
  | [] => (Normal [], this)
  | Write chunk :: rest =>
      match onmessage (audio_data chunk) this with
      | (Normal _, this1) => serve frameSize rest this1
      | (Throw e, this1) => (Throw e, this1)
      end
  | Read :: rest =>
      match pull frameSize this with
      | (Normal frame, this1) =>
          match serve frameSize rest this1 with
          | (Normal frames, this2) => (Normal (frame :: frames), this2)
          | (Throw e, this2) => (Throw e, this2)
          end
      | (Throw e, this1) => (Throw e, this1)
      end
  end.

(** The same run on a plain queue of at most [size] samples, to compare
    the processor with: a write appends, a read takes a frame from the
    front when there is one and is silence otherwise. There is no
    answer when a write does not fit. *)
Fixpoint queue (frameSize size : nat) (ops : list Op) (q : list sample)
  : option (list (list sample) * list sample) :=
  match ops with
  | [] => Some ([], q)
  | Write chunk :: rest =>
      if length q + length chunk <=? size
      then queue frameSize size rest (q ++ chunk)
      else None
  | Read :: rest =>
      if frameSize <=? length q
      then match queue frameSize size rest (skipn frameSize q) with
           | Some (frames, q') => Some (firstn frameSize q :: frames, q')
           | None => None
           end
      else match queue frameSize size rest q with
           | Some (frames, q') => Some (repeat zero frameSize :: frames, q')
           | None => None
           end
  end.

(** The processor holds the queue [q]. *)
Definition represents (q : list sample) (this : t) : Prop :=
  wf this /\
  availableSamples this = length q /\
  writeIndex this =
  (readIndex this + availableSamples this) mod bufferSize this /\
  contents this = q.

End Processor.

Arguments mk {sample}.
Arguments Message {sample}.
Arguments Render {sample}.
Arguments Write {sample}.
Arguments Read {sample}.
Arguments audio_data {sample}.
Arguments mkData {sample}.

(** Integer samples [first], [first + 1], ... to run the processor on. *)
Definition ramp (first : Z) (n : nat) : list Z :=
  map (fun i => (first + Z.of_nat i)%Z) (seq 0 n).

End NativeAudioProcessor.

(** ** The recording store *)

Module RecordingStore.
Import Js.
Local Open Scope js_scope.

Inductive ConnectionState : Type :=
| disconnected
| connecting
| idle
| recording
| processing.

Definition ConnectionState_eqb (a b : ConnectionState) : bool :=
  match a, b with
  | disconnected, disconnected
  | connecting, connecting
  | idle, idle
  | recording, recording
  | processing, processing => true
  | _, _ => false
  end.

(** The two methods of the session client the store calls. Every
    message is sent with the empty object as its data. *)
Inductive ClientCall : Type :=
| sendClientMessage (msgType : string)
| enableMic (enable : bool).

(** A [PipecatClient] is external: all the store can observe is whether
    a call throws, which may depend on the calls made before. *)
Record PipecatClient : Type := mkClient {
  throws : list ClientCall -> ClientCall -> option Error
}.

(** The data fields of the store ([RecordingState] without its actions). *)
Record RecordingState : Type := mkState {
  state : ConnectionState;
  client : option PipecatClient;
  serverUrl : option string
}.

(** The store together with the calls its clients have received. *)
Record World : Type := mkWorld {
  store : RecordingState;
  calls : list ClientCall
}.

(** The initial store: [state: "disconnected", client: null,
    serverUrl: null]. *)
Definition initial : World :=
  {| store := {| state := disconnected; client := None; serverUrl := None |};
     calls := [] |}.

(** [get()]. *)
Definition get : M World RecordingState := gets store.

(** [set({ state })], [set({ client })], [set({ serverUrl })]: zustand
    merges the partial object into the store. *)
Definition set_state (st : ConnectionState) : M World unit :=
  modify (fun w =>
    {| store := {| state := st;
                   client := client (store w);
                   serverUrl := serverUrl (store w) |};
       calls := calls w |}).

Definition set_client (c : option PipecatClient) : M World unit :=
  modify (fun w =>
    {| store := {| state := state (store w);
                   client := c;
                   serverUrl := serverUrl (store w) |};
       calls := calls w |}).

Definition set_serverUrl (u : option string) : M World unit :=
  modify (fun w =>
    {| store := {| state := state (store w);
                   client := client (store w);
                   serverUrl := u |};
       calls := calls w |}).

(** A method call on the client: it is received, and it returns or
    throws as the client decides. *)
Definition call (c : PipecatClient) (m : ClientCall) : M World unit :=
  fun w =>
    let w' := {| store := store w; calls := calls w ++ [m] |} in
    match throws c (calls w) m with
    | Some e => (Throw e, w')
    | None => (Normal tt, w')
    end.

(** *** Actions *)

Definition setClient (c : option PipecatClient) : M World unit :=
  set_client c.

Definition setServerUrl (u : option string) : M World unit :=
  set_serverUrl u.

Definition setState (st : ConnectionState) : M World unit :=
  set_state st.

(** *** State transitions *)

Definition startConnecting : M World unit :=
  s <- get ;;
  if ConnectionState_eqb (state s) disconnected
  then set_state connecting
  else ret tt.

Definition handleConnected : M World unit :=
  s <- get ;;
  if ConnectionState_eqb (state s) connecting
     || ConnectionState_eqb (state s) disconnected
  then set_state idle
  else ret tt.

Definition handleDisconnected : M World unit :=
  set_state disconnected.

(** The guard [state !== "idle" || !client] rejects; past it the client
    is an object. The [console] calls have no effect on the store. *)
Definition startRecording : M World bool :=
  s <- get ;;
  match client s with
  | Some c =>
      if negb (ConnectionState_eqb (state s) idle)
      then ret false
      else
        try_catch
          (call c (sendClientMessage "start-recording") ;;;
           call c (enableMic true) ;;;
           set_state recording ;;;
           ret true)
          (fun _ => ret false)
  | None => ret false
  end.

Definition stopRecording : M World bool :=
  s <- get ;;
  match client s with
  | Some c =>
      if negb (ConnectionState_eqb (state s) recording)
      then ret false
      else
        try_catch
          (call c (enableMic false) ;;;
           call c (sendClientMessage "stop-recording") ;;;
           set_state processing ;;;
           ret true)
          (fun _ => ret false)
  | None => ret false
  end.

Definition handleResponse : M World unit :=
  s <- get ;;
  if ConnectionState_eqb (state s) processing
  then set_state idle
  else ret tt.

(** [reset: () => set({ state: "disconnected", client: null })]. *)
Definition reset : M World unit :=
  modify (fun w =>
    {| store := {| state := disconnected;
                   client := None;
                   serverUrl := serverUrl (store w) |};
       calls := calls w |}).

(** *** The transition operations as one family *)

Inductive Operation : Type :=
| StartConnecting
| HandleConnected
| HandleDisconnected
| StartRecording
| StopRecording
| HandleResponse
| Reset.

(** What a caller receives: the actions typed [() => void] return
    [undefined], the two typed [() => boolean] return a boolean. *)
Inductive ReturnValue : Type :=
| undefined
| boolean (b : bool).

Definition void (m : M World unit) : M World ReturnValue :=
  _ <- m ;; ret undefined.

Definition returning (m : M World bool) : M World ReturnValue :=
  b <- m ;; ret (boolean b).

Definition run (op : Operation) : M World ReturnValue :=
  match op with
  | StartConnecting => void startConnecting
  | HandleConnected => void handleConnected
  | HandleDisconnected => void handleDisconnected
  | StartRecording => returning startRecording
  | StopRecording => returning stopRecording
  | HandleResponse => void handleResponse
  | Reset => void reset
  end.

(** *** The transition table of the specification

    The table as the specification draws it, to compare the actions
    with: the target of an operation in a state, when there is a row for
    the pair, and the guard of the row. *)
Definition table (from : ConnectionState) (op : Operation)
  : option ConnectionState :=
  match op, from with
  | StartConnecting, disconnected => Some connecting
  | HandleConnected, connecting => Some idle
  | HandleConnected, disconnected => Some idle
  | StartRecording, idle => Some recording
  | StopRecording, recording => Some processing
  | HandleResponse, processing => Some idle
  | HandleDisconnected, _ => Some disconnected
  | Reset, _ => Some disconnected
  | _, _ => None
  end.

Definition guard (op : Operation) (s : RecordingState) : bool :=
  match op with
  | StartRecording | StopRecording =>
      match client s with Some _ => true | None => false end
  | _ => true
  end.

(** An operation is legal where the table has a row whose guard holds. *)
Definition legal (op : Operation) (s : RecordingState) : bool :=
  match table (state s) op with
  | Some _ => guard op s
  | None => false
  end.

(** The client of the post-state the table allows: only [reset] clears
    it. *)
Definition client_after (op : Operation) (s : RecordingState)
  : option PipecatClient :=
  match op with
  | Reset => None
  | _ => client s
  end.

(** A caller is told of a failure when the call returns [false]. *)
Definition reports_failure (c : completion ReturnValue) : Prop :=
  c = Normal (boolean false).

(** The calls of a list are all accepted by the client, one after the
    other, after it has received [before]. *)
Fixpoint accepts (c : PipecatClient) (before ms : list ClientCall) : bool :=
  match ms with
  | [] => true
  | m :: rest =>
      match throws c before m with
      | Some _ => false
      | None => accepts c (before ++ [m]) rest
      end
  end.

(** *** Runs of transition operations *)

(** The world after a run of operations, whatever they return. *)
Definition run_all (ops : list Operation) (w : World) : World :=
  fold_left (fun w op => snd (run op w)) ops w.

(** A client that never throws. *)
Definition reliable (c : PipecatClient) : Prop :=
  forall (before : list ClientCall) (m : ClientCall), throws c before m = None.

(** The client that accepts every call. *)
Definition obliging_client : PipecatClient :=
  {| throws := fun _ _ => None |}.

(** What the client was last told about the microphone, if anything. *)
Fixpoint mic (received : list ClientCall) : option bool :=
  match received with
  | [] => None
  | m :: rest =>
      match mic rest, m with
      | Some b, _ => Some b
      | None, enableMic b => Some b
      | None, sendClientMessage _ => None
      end
  end.

End RecordingStore.

(** ** The bridge from the native capture to the worklet *)

Module NativeAudioBridge.
Import Js.
Local Open Scope js_scope.

(** [audioContext.state]. *)
Inductive AudioContextState : Type :=
| suspended
| running
| closed.

(** The commands of the capture subsystem the bridge invokes. *)
Inductive Command : Type :=
| start_native_mic (deviceId : option string)
| stop_native_mic
| pause_native_mic
| resume_native_mic.

(** How the host answers the requests one call of [start] awaits: each
    promise either resolves or rejects with an error. *)
Record Host : Type := mkHost {
  resume_rejects : option Error;
  listen_rejects : option Error;
  invoke_rejects : Command -> option Error
}.

(** What [createNativeAudioBridge] closes over, and the part of the host
    its functions act on: [unlisten] is the closure variable (the
    listener its call would remove), [listeners] the listeners of the
    event [native-audio-data] registered in the event system, [invoked]
    the commands received by the capture subsystem. *)
Record World : Type := mkWorld {
  audioContextState : AudioContextState;
  unlisten : option nat;
  listeners : list nat;
  nextListener : nat;
  invoked : list Command
}.

(** The bridge as [createNativeAudioBridge] returns it. *)
Definition created (s : AudioContextState) : World :=
  {| audioContextState := s;
     unlisten := None;
     listeners := [];
     nextListener := 0;
     invoked := [] |}.

(** [await audioContext.resume()]. *)
Definition audioContext_resume (h : Host) : M World unit :=
  fun w =>
    match resume_rejects h with
    | Some e => (Throw e, w)
    | None =>
        (Normal tt,
         {| audioContextState := running;
            unlisten := unlisten w;
            listeners := listeners w;
            nextListener := nextListener w;
            invoked := invoked w |})
    end.

(** [await listen("native-audio-data", handler)]: registers the handler
    and resolves to the function that removes it. *)
Definition listen (h : Host) : M World nat :=
  fun w =>
    match listen_rejects h with
    | Some e => (Throw e, w)
    | None =>
        (Normal (nextListener w),
         {| audioContextState := audioContextState w;
            unlisten := unlisten w;
            listeners := listeners w ++ [nextListener w];
            nextListener := S (nextListener w);
            invoked := invoked w |})
    end.

(** [unlisten = f]. *)
Definition assign_unlisten (f : option nat) : M World unit :=
  modify (fun w =>
    {| audioContextState := audioContextState w;
       unlisten := f;
       listeners := listeners w;
       nextListener := nextListener w;
       invoked := invoked w |}).

Definition received (c : Command) (w : World) : World :=
  {| audioContextState := audioContextState w;
     unlisten := unlisten w;
     listeners := listeners w;
     nextListener := nextListener w;
     invoked := invoked w ++ [c] |}.

(** [await invoke(command)]. *)
Definition invoke_await (h : Host) (c : Command) : M World unit :=
  fun w =>
    match invoke_rejects h c with
    | Some e => (Throw e, received c w)
    | None => (Normal tt, received c w)
    end.

(** [invoke(command)] whose promise is dropped: a rejection reaches no
    one. *)
Definition invoke_detached (c : Command) : M World unit :=
  modify (received c).

(** Calling the function [listen] resolved to. *)
Definition call_unlisten (id : nat) : M World unit :=
  modify (fun w =>
    {| audioContextState := audioContextState w;
       unlisten := unlisten w;
       listeners := List.remove Nat.eq_dec id (listeners w);
       nextListener := nextListener w;
       invoked := invoked w |}).

(** [start(deviceId)], run to completion: the three awaits in a row. *)
Definition start (h : Host) (deviceId : option string) : M World unit :=
  s <- gets audioContextState ;;
  (match s with
   | suspended => audioContext_resume h
   | _ => ret tt
   end) ;;;
  u <- gets unlisten ;;
  (match u with
   | None => id <- listen h ;; assign_unlisten (Some id)
   | Some _ => ret tt
   end) ;;;
  invoke_await h (start_native_mic deviceId).

(** [start] cut where it waits for [listen]. The first part runs from
    the call to the [await] of [listen]: the audio context is resumed
    if need be, [unlisten] is tested and [listen] is called when it is
    not set; the result is the listener the pending [listen] resolves
    to, if it was called. The second part runs once [listen] has
    resolved: the assignment to [unlisten], then the capture command.
    Other code of the same thread may run between the two. *)
Definition start_to_listen (h : Host) : M World (option nat) :=
  s <- gets audioContextState ;;
  (match s with
   | suspended => audioContext_resume h
   | _ => ret tt
   end) ;;;
  u <- gets unlisten ;;
  match u with
  | None => id <- listen h ;; ret (Some id)
  | Some _ => ret None
  end.

Definition start_from_listen (h : Host) (deviceId : option string)
           (pending : option nat) : M World unit :=
  (match pending with
   | Some id => assign_unlisten (Some id)
   | None => ret tt
   end) ;;;
  invoke_await h (start_native_mic deviceId).

(** Two calls of [start], the second made while the first waits for
    [listen]: both first parts, then both second parts. Each call has
    its own completion. *)
Definition start_overlapping (h1 : Host) (d1 : option string)
           (h2 : Host) (d2 : option string) (w : World)
  : completion unit * completion unit * World :=
  let '(p1, w1) := start_to_listen h1 w in
  let '(p2, w2) := start_to_listen h2 w1 in
  let '(c1, w3) := match p1 with
                   | Normal pending => start_from_listen h1 d1 pending w2
                   | Throw e => (Throw e, w2)
                   end in
  let '(c2, w4) := match p2 with
                   | Normal pending => start_from_listen h2 d2 pending w3
                   | Throw e => (Throw e, w3)
                   end in
  (c1, c2, w4).

Definition stop : M World unit :=
  invoke_detached stop_native_mic ;;;
  u <- gets unlisten ;;
  (match u with
   | Some id => call_unlisten id
   | None => ret tt
   end) ;;;
  assign_unlisten None.

Definition pause : M World unit := invoke_detached pause_native_mic.

Definition resume : M World unit := invoke_detached resume_native_mic.

(** *** Inbound chunks *)

Section Chunks.
Variable sample : Type.

(** One event [native-audio-data]: every registered listener posts one
    [audio-data] message to the port of the worklet. *)
Definition posted (payload : list sample) (w : World)
  : list (NativeAudioProcessor.MessageData sample) :=
  map (fun _ => NativeAudioProcessor.audio_data payload) (listeners w).

(** The processor after it has handled the messages of one event. *)
Definition emit (payload : list sample) (w : World)
           (p : NativeAudioProcessor.t sample)
  : NativeAudioProcessor.t sample :=
  fold_left (fun p d => snd (NativeAudioProcessor.onmessage d p))
            (posted payload w) p.
End Chunks.

(** *** Runs of calls *)

Inductive Call : Type :=
| Start (h : Host) (deviceId : option string)
| Stop
| Pause
| Resume.

Definition perform (c : Call) : M World unit :=
  match c with
  | Start h d => start h d
  | Stop => stop
  | Pause => pause
  | Resume => resume
  end.

(** The calls of a list one after the other, each run to completion,
    whatever their completions. *)
Definition after (cs : list Call) (w : World) : World :=
  fold_left (fun w c => snd (perform c w)) cs w.

(** Calls of [start] one after the other, each awaited before the next;
    the run ends at the first call that throws. *)
Fixpoint starts (hs : list (Host * option string)) : M World unit :=
  match hs with
  | [] => ret tt
  | (h, d) :: rest => start h d ;;; starts rest
  end.

(** The host rejects nothing. *)
Definition obliging : Host :=
  {| resume_rejects := None;
     listen_rejects := None;
     invoke_rejects := fun _ => None |}.

(** The capture subsystem rejects every device. *)
Definition no_device : Host :=
  {| resume_rejects := None;
     listen_rejects := None;
     invoke_rejects :=
       fun c => match c with
                | start_native_mic _ => Some (HostError "device not found")
                | _ => None
                end |}.

(** The subscription is what [unlisten] says it is. *)
Definition subscription_consistent (w : World) : Prop :=
  listeners w = match unlisten w with
                | Some id => [id]
                | None => []
                end.

End NativeAudioBridge.

(** ** Formatting profiles and their detection *)

Module FormattingProfiles.
Local Open Scope string_scope.

(** The double quote and the line feed, for the prompts. *)
Definition dq : string := String (Ascii.ascii_of_nat 34) EmptyString.
Definition nl : string := String (Ascii.ascii_of_nat 10) EmptyString.

(** The enumerations of the settings are strings at run time. *)
Record ProfileSettings : Type := mkSettings {
  tone : string;
  punctuation : string;
  capitalization : string;
  lineBreaks : string;
  emojiAllowed : bool;
  codeFormatting : option bool;
  signatureEnabled : option bool
}.

Record FormattingProfile : Type := mkProfile {
  id : string;
  name : string;
  icon : string;
  description : string;
  prompt : string;
  settings : ProfileSettings;
  isBuiltIn : option bool
}.

Record ActiveWindowInfo : Type := mkWindow {
  window_title : string;
  app_name : string;
  bundle_id : option string;
  process_name : option string;
  url : option string
}.

Definition profile_default : FormattingProfile :=
  {| id := "default";
     name := "Default";
     icon := "Type";
     description := "Standard dictation formatting";
     prompt :=
       String.concat nl
       ["Format the transcribed speech as clean, readable text.";
        "- Use proper capitalization and punctuation";
        "- Fix obvious speech recognition errors";
        "- Maintain the natural flow of speech"];
     settings :=
       {| tone := "neutral";
          punctuation := "full";
          capitalization := "sentences";
          lineBreaks := "paragraphs";
          emojiAllowed := false;
          codeFormatting := None;
          signatureEnabled := None |};
     isBuiltIn := Some true |}.

Definition profile_email_pro : FormattingProfile :=
  {| id := "email-pro";
     name := "Email Professional";
     icon := "Mail";
     description := "Formal business emails with proper salutations";
     prompt :=
       String.concat nl
       ["Format as a professional email. Include:";
        "- Appropriate greeting (Dear/Hello based on context)";
        "- Clear, formal tone with complete sentences";
        "- Professional sign-off if closing detected";
        "- Proper paragraph breaks between topics";
        "";
        ("If the user says " ++ dq ++ "sign off" ++ dq ++ " or indicates ending, add:")%string;
        "Best regards,";
        "[Name]"];
     settings :=
       {| tone := "formal";
          punctuation := "full";
          capitalization := "sentences";
          lineBreaks := "paragraphs";
          emojiAllowed := false;
          codeFormatting := None;
          signatureEnabled := Some true |};
     isBuiltIn := Some true |}.

Definition profile_email_casual : FormattingProfile :=
  {| id := "email-casual";
     name := "Email Casual";
     icon := "MailOpen";
     description := "Friendly, relaxed email formatting";
     prompt :=
       String.concat nl
       ["Format as a casual, friendly email:";
        "- Relaxed greeting (Hey, Hi)";
        "- Conversational tone";
        "- Contractions are fine";
        "- Brief paragraphs";
        "- Friendly sign-off (Thanks!, Cheers, Best)"];
     settings :=
       {| tone := "casual";
          punctuation := "full";
          capitalization := "sentences";
          lineBreaks := "paragraphs";
          emojiAllowed := true;
          codeFormatting := None;
          signatureEnabled := None |};
     isBuiltIn := Some true |}.

Definition profile_chat : FormattingProfile :=
  {| id := "chat";
     name := "Chat & Messaging";
     icon := "MessageCircle";
     description := "Casual messaging for Slack, Discord, etc.";
     prompt :=
       String.concat nl
       ["Format for casual chat messaging:";
        "- Keep it brief and conversational";
        "- Use contractions naturally";
        "- Emojis allowed when tone suggests them";
        "- No formal punctuation needed at end of messages";
        "- Multiple short messages can stay separate";
        ("- " ++ dq ++ "new line" ++ dq ++ " or " ++ dq ++ "enter" ++ dq ++ " starts a new message")%string];
     settings :=
       {| tone := "casual";
          punctuation := "minimal";
          capitalization := "sentences";
          lineBreaks := "single";
          emojiAllowed := true;
          codeFormatting := None;
          signatureEnabled := None |};
     isBuiltIn := Some true |}.

Definition profile_code : FormattingProfile :=
  {| id := "code";
     name := "Code Editor";
     icon := "Code";
     description := "Programming-aware formatting";
     prompt :=
       String.concat nl
       ["Format for code/programming context:";
        "- Detect variable names and use camelCase or snake_case as appropriate";
        "- Technical terms should not be altered";
        "- No periods at end of comments";
        "- Preserve programming keywords exactly";
        "- Format function names, class names properly";
        "- Handle spoken symbols:";
        ("  - " ++ dq ++ "equals" ++ dq ++ " → =")%string;
        ("  - " ++ dq ++ "double equals" ++ dq ++ " → ==")%string;
        ("  - " ++ dq ++ "triple equals" ++ dq ++ " → ===")%string;
        ("  - " ++ dq ++ "arrow" ++ dq ++ " or " ++ dq ++ "fat arrow" ++ dq ++ " → =>")%string;
        ("  - " ++ dq ++ "curly brace" ++ dq ++ " → {")%string;
        ("  - " ++ dq ++ "close curly" ++ dq ++ " → }")%string;
        ("  - " ++ dq ++ "square bracket" ++ dq ++ " → [")%string;
        ("  - " ++ dq ++ "semicolon" ++ dq ++ " → ;")%string;
        ("  - " ++ dq ++ "colon" ++ dq ++ " → :")%string;
        ("- " ++ dq ++ "new line" ++ dq ++ " starts a new line of code")%string];
     settings :=
       {| tone := "technical";
          punctuation := "minimal";
          capitalization := "preserve";
          lineBreaks := "none";
          emojiAllowed := false;
          codeFormatting := Some true;
          signatureEnabled := None |};
     isBuiltIn := Some true |}.

Definition profile_terminal : FormattingProfile :=
  {| id := "terminal";
     name := "Terminal/CLI";
     icon := "Terminal";
     description := "Command-line formatting";
     prompt :=
       String.concat nl
       ["Format for terminal/command-line:";
        "- All lowercase unless explicitly capitalized";
        "- No punctuation";
        "- Preserve exact command syntax";
        "- Handle flags:";
        ("  - " ++ dq ++ "dash dash verbose" ++ dq ++ " → --verbose")%string;
        ("  - " ++ dq ++ "dash v" ++ dq ++ " → -v")%string;
        ("  - " ++ dq ++ "dash f" ++ dq ++ " → -f")%string;
        "- Handle symbols:";
        ("  - " ++ dq ++ "pipe" ++ dq ++ " → |")%string;
        ("  - " ++ dq ++ "redirect" ++ dq ++ " or " ++ dq ++ "greater than" ++ dq ++ " → >")%string;
        ("  - " ++ dq ++ "append" ++ dq ++ " → >>")%string;
        ("  - " ++ dq ++ "ampersand" ++ dq ++ " or " ++ dq ++ "and" ++ dq ++ " → &&")%string;
        ("  - " ++ dq ++ "tilde" ++ dq ++ " → ~")%string;
        ("  - " ++ dq ++ "slash" ++ dq ++ " → /")%string;
        ("  - " ++ dq ++ "backslash" ++ dq ++ " → \")%string];
     settings :=
       {| tone := "technical";
          punctuation := "none";
          capitalization := "lowercase";
          lineBreaks := "none";
          emojiAllowed := false;
          codeFormatting := None;
          signatureEnabled := None |};
     isBuiltIn := Some true |}.

Definition profile_document : FormattingProfile :=
  {| id := "document";
     name := "Document";
     icon := "FileText";
     description := "Full document formatting";
     prompt :=
       String.concat nl
       ["Format for document writing:";
        "- Full sentences with proper grammar";
        "- Complete punctuation";
        "- Organize into clear paragraphs";
        "- Use formal, clear language";
        "- Handle dictated formatting:";
        ("  - " ++ dq ++ "new paragraph" ++ dq ++ " → start new paragraph")%string;
        ("  - " ++ dq ++ "bullet point" ++ dq ++ " → create bullet point")%string;
        ("  - " ++ dq ++ "heading" ++ dq ++ " → format as heading")%string];
     settings :=
       {| tone := "formal";
          punctuation := "full";
          capitalization := "sentences";
          lineBreaks := "paragraphs";
          emojiAllowed := false;
          codeFormatting := None;
          signatureEnabled := None |};
     isBuiltIn := Some true |}.

Definition profile_notes : FormattingProfile :=
  {| id := "notes";
     name := "Notes";
     icon := "StickyNote";
     description := "Quick note-taking format";
     prompt :=
       String.concat nl
       ["Format for quick note-taking:";
        "- Brief, scannable format";
        "- Bullet points for lists";
        "- Key information highlighted";
        ("- " ++ dq ++ "bullet" ++ dq ++ " or " ++ dq ++ "dash" ++ dq ++ " creates a bullet point")%string;
        ("- " ++ dq ++ "heading" ++ dq ++ " or " ++ dq ++ "title" ++ dq ++ " creates a section header")%string;
        "- Skip unnecessary words"];
     settings :=
       {| tone := "neutral";
          punctuation := "minimal";
          capitalization := "sentences";
          lineBreaks := "single";
          emojiAllowed := false;
          codeFormatting := None;
          signatureEnabled := None |};
     isBuiltIn := Some true |}.

Definition DEFAULT_PROFILES : list FormattingProfile :=
  [profile_default;
   profile_email_pro;
   profile_email_casual;
   profile_chat;
   profile_code;
   profile_terminal;
   profile_document;
   profile_notes].

(** [Object.entries(APP_PROFILE_MAPPINGS)], in insertion order. *)
Definition APP_PROFILE_MAPPINGS : list (string * list string) :=
  [("email-pro",
    ["com.google.Chrome";
     "com.apple.mail";
     "com.microsoft.Outlook";
     "com.readdle.smartemail";
     "Mail";
     "Outlook";
     "Thunderbird"]);
   ("chat",
    ["com.tinyspeck.slackmacgap";
     "com.hnc.Discord";
     "WhatsApp";
     "com.facebook.Messenger";
     "Telegram";
     "Slack";
     "Discord";
     "Signal";
     "Messages";
     "com.apple.MobileSMS"]);
   ("code",
    ["com.microsoft.VSCode";
     "com.jetbrains.intellij";
     "com.todesktop.230313mzl4w4u92";
     "com.sublimetext.4";
     "Code";
     "Visual Studio Code";
     "Cursor";
     "IntelliJ IDEA";
     "WebStorm";
     "PyCharm";
     "Sublime Text";
     "Zed";
     "nvim";
     "vim";
     "Neovim"]);
   ("terminal",
    ["com.apple.Terminal";
     "com.googlecode.iterm2";
     "dev.warp.Warp-Stable";
     "org.alacritty";
     "Terminal";
     "iTerm2";
     "Warp";
     "kitty";
     "Alacritty";
     "Hyper";
     "WindowsTerminal";
     "cmd.exe";
     "powershell.exe"]);
   ("document",
    ["com.microsoft.Word";
     "com.apple.iWork.Pages";
     "Word";
     "Pages";
     "Google Docs";
     "LibreOffice Writer";
     "WINWORD.EXE"]);
   ("notes",
    ["com.apple.Notes";
     "md.obsidian";
     "notion.id";
     "Notes";
     "Obsidian";
     "Notion";
     "Bear";
     "Evernote";
     "OneNote"])].

(** [Object.entries(URL_PROFILE_MAPPINGS)], in insertion order. *)
Definition URL_PROFILE_MAPPINGS : list (string * string) :=
  [("mail.google.com", "email-pro");
   ("outlook.office.com", "email-pro");
   ("outlook.live.com", "email-pro");
   ("slack.com", "chat");
   ("discord.com", "chat");
   ("web.whatsapp.com", "chat");
   ("messenger.com", "chat");
   ("web.telegram.org", "chat");
   ("github.com", "code");
   ("gitlab.com", "code");
   ("docs.google.com", "document");
   ("notion.so", "notes")].

(** [s.includes(pattern)]: [pattern] occurs somewhere in [s]. *)
Fixpoint includes (s pattern : string) : bool :=
  String.prefix pattern s
  || match s with
     | EmptyString => false
     | String _ rest => includes rest pattern
     end.

(** [profiles.find((p) => p.id === profileId)]. *)
Definition find_profile (profiles : list FormattingProfile)
           (profileId : string) : option FormattingProfile :=
  find (fun p => String.eqb (id p) profileId) profiles.

(** What [filter(Boolean)] keeps of one entry: a string that is neither
    [undefined] nor empty. *)
Definition truthy (s : option string) : list string :=
  match s with
  | Some EmptyString => []
  | Some s => [s]
  | None => []
  end.

Section Detect.

(** [String.prototype.toLowerCase], left open. *)
Variable toLowerCase : string -> string.

(** The loop over the entries of [URL_PROFILE_MAPPINGS]. *)
Fixpoint detect_url (u : string) (entries : list (string * string))
  : option FormattingProfile :=
  match entries with
  | [] => None
  | (urlPattern, profileId) :: rest =>
      if includes u urlPattern
      then match find_profile DEFAULT_PROFILES profileId with
           | Some profile => Some profile
           | None => detect_url u rest
           end
      else detect_url u rest
  end.

(** The test of [appPatterns.some(...)]. *)
Definition pattern_matches (identifier pattern : string) : bool :=
  includes identifier pattern
  || String.eqb (toLowerCase pattern) (toLowerCase identifier).

(** The loop over [appIdentifiers] for one entry of
    [APP_PROFILE_MAPPINGS]. *)
Fixpoint detect_identifiers (profileId : string) (appPatterns : list string)
         (identifiers : list string) : option FormattingProfile :=
  match identifiers with
  | [] => None
  | identifier :: rest =>
      if existsb (pattern_matches identifier) appPatterns
      then match find_profile DEFAULT_PROFILES profileId with
           | Some profile => Some profile
           | None => detect_identifiers profileId appPatterns rest
           end
      else detect_identifiers profileId appPatterns rest
  end.

(** The loop over the entries of [APP_PROFILE_MAPPINGS]. *)
Fixpoint detect_apps (entries : list (string * list string))
         (identifiers : list string) : option FormattingProfile :=
  match entries with
  | [] => None
  | (profileId, appPatterns) :: rest =>
      match detect_identifiers profileId appPatterns identifiers with
      | Some profile => Some profile
      | None => detect_apps rest identifiers
      end
  end.

Definition appIdentifiers (windowInfo : ActiveWindowInfo) : list string :=
  (truthy (bundle_id windowInfo)
   ++ truthy (Some (app_name windowInfo))
   ++ truthy (process_name windowInfo))%list.

Definition detectProfileForApp (windowInfo : ActiveWindowInfo)
  : option FormattingProfile :=
  match match url windowInfo with
        | Some EmptyString => None
        | Some u => detect_url u URL_PROFILE_MAPPINGS
        | None => None
        end with
  | Some profile => Some profile
  | None =>
      match detect_apps APP_PROFILE_MAPPINGS (appIdentifiers windowInfo) with
      | Some profile => Some profile
      | None =>
          let appLower := toLowerCase (app_name windowInfo) in
          if includes appLower "code"
             || includes appLower "studio"
             || includes appLower "intellij"
             || includes appLower "vim"
          then find_profile DEFAULT_PROFILES "code"
          else if includes appLower "terminal"
                  || includes appLower "iterm"
                  || includes appLower "warp"
          then find_profile DEFAULT_PROFILES "terminal"
          else if includes appLower "slack"
                  || includes appLower "discord"
                  || includes appLower "telegram"
          then find_profile DEFAULT_PROFILES "chat"
          else None
      end
  end.

End Detect.

(** [getProfileById(profileId, customProfiles)]; a caller that leaves
    [customProfiles] out passes the empty list. *)
Definition getProfileById (profileId : string)
           (customProfiles : list FormattingProfile)
  : option FormattingProfile :=
  find_profile (DEFAULT_PROFILES ++ customProfiles)%list profileId.

(** The profiles a window can be detected as. *)
Definition detectable : list string :=
  ["email-pro"; "chat"; "code"; "terminal"; "document"; "notes"].

End FormattingProfiles.

(** * Properties of the recording store *)

Module RecordingStoreFacts.
Import Js RecordingStore.

Ltac run_store :=
  cbv [run void returning startConnecting handleConnected
       handleDisconnected startRecording stopRecording handleResponse
       reset get gets set_state modify bind ret try_catch call fst snd].

Lemma ConnectionState_eqb_eq (a b : ConnectionState) :
  ConnectionState_eqb a b = true <-> a = b.
Proof.
  destruct a, b; simpl; split; intro H; try reflexivity; discriminate H.
Qed.

(** An operation the table has no row for, or whose guard fails, changes
    nothing at all; what it returns depends on its type only. *)
Lemma run_illegal (op : Operation) (w : World) :
  legal op (store w) = false ->
  run op w =
  (Normal match op with
          | StartRecording | StopRecording => boolean false
          | _ => undefined
          end, w).
Proof.
  destruct w as [[s c u] l]; unfold legal; simpl.
  destruct op, s; simpl; intro H; try discriminate H;
    run_store; simpl; try reflexivity;
    destruct c; try discriminate H; reflexivity.
Qed.

(** The two recording transitions, from the state they are legal in:
    the client receives the two calls in order, and the state moves
    exactly when the client accepts both. *)
Lemma startRecording_idle (c : PipecatClient) (u : option string)
      (l : list ClientCall) :
  let w := {| store := {| state := idle; client := Some c;
                          serverUrl := u |};
              calls := l |} in
  let ms := [sendClientMessage "start-recording"; enableMic true] in
  if accepts c l ms
  then startRecording w =
       (Normal true,
        {| store := {| state := recording; client := Some c;
                       serverUrl := u |};
           calls := l ++ ms |})
  else fst (startRecording w) = Normal false /\
       store (snd (startRecording w)) = store w /\
       exists n, n < 2 /\ calls (snd (startRecording w)) = l ++ firstn (S n) ms.
Proof.
  cbv zeta. unfold accepts. run_store. simpl.
  destruct (throws c l (sendClientMessage "start-recording")) eqn:E1.
  - split; [reflexivity | split; [reflexivity |]].
    exists 0. split; [lia | reflexivity].
  - simpl.
    destruct (throws c (l ++ [sendClientMessage "start-recording"])
                     (enableMic true)) eqn:E2; simpl.
    + split; [reflexivity | split; [reflexivity |]].
      exists 1. split; [lia |].
      now rewrite <- app_assoc.
    + now rewrite <- app_assoc.
Qed.

Lemma stopRecording_recording (c : PipecatClient) (u : option string)
      (l : list ClientCall) :
  let w := {| store := {| state := recording; client := Some c;
                          serverUrl := u |};
              calls := l |} in
  let ms := [enableMic false; sendClientMessage "stop-recording"] in
  if accepts c l ms
  then stopRecording w =
       (Normal true,
        {| store := {| state := processing; client := Some c;
                       serverUrl := u |};
           calls := l ++ ms |})
  else fst (stopRecording w) = Normal false /\
       store (snd (stopRecording w)) = store w /\
       exists n, n < 2 /\ calls (snd (stopRecording w)) = l ++ firstn (S n) ms.
Proof.
  cbv zeta. unfold accepts. run_store. simpl.
  destruct (throws c l (enableMic false)) eqn:E1.
  - split; [reflexivity | split; [reflexivity |]].
    exists 0. split; [lia | reflexivity].
  - simpl.
    destruct (throws c (l ++ [enableMic false])
                     (sendClientMessage "stop-recording")) eqn:E2; simpl.
    + split; [reflexivity | split; [reflexivity |]].
      exists 1. split; [lia |].
      now rewrite <- app_assoc.
    + now rewrite <- app_assoc.
Qed.

(** C3. [startRecording] and [stopRecording] are atomic with respect to
    the state. From [idle] (resp. [recording]) with a client: when the
    client accepts both calls the action returns [true], the state
    becomes [recording] (resp. [processing]) and the client has received
    exactly one control message of the corresponding name and one
    [enableMic] call; when either call throws the action returns [false]
    and the fields of the store are what they were. *)
Theorem recording_transitions_atomic
        (c : PipecatClient) (u : option string) (l : list ClientCall) :
  let at_state st :=
    {| store := {| state := st; client := Some c; serverUrl := u |};
       calls := l |} in
  let start_calls := [sendClientMessage "start-recording"; enableMic true] in
  let stop_calls := [enableMic false; sendClientMessage "stop-recording"] in
  (if accepts c l start_calls
   then startRecording (at_state idle) =
        (Normal true,
         {| store := store (at_state recording);
            calls := l ++ start_calls |})
   else fst (startRecording (at_state idle)) = Normal false /\
        store (snd (startRecording (at_state idle))) =
        store (at_state idle)) /\
  (if accepts c l stop_calls
   then stopRecording (at_state recording) =
        (Normal true,
         {| store := store (at_state processing);
            calls := l ++ stop_calls |})
   else fst (stopRecording (at_state recording)) = Normal false /\
        store (snd (stopRecording (at_state recording))) =
        store (at_state recording)).
Proof.
  cbv zeta. split.
  - pose proof (startRecording_idle c u l) as H. cbv zeta in H.
    destruct (accepts c l _).
    + exact H.
    + destruct H as (H1 & H2 & _). split; assumption.
  - pose proof (stopRecording_recording c u l) as H. cbv zeta in H.
    destruct (accepts c l _).
    + exact H.
    + destruct H as (H1 & H2 & _). split; assumption.
Qed.

(** C2, as stated: every illegal operation leaves the state unchanged
    and reports failure. It fails for the actions typed [() => void]:
    [startConnecting] from [idle] changes nothing and returns
    [undefined], as it does when it applies. *)
Lemma illegal_startConnecting_reports_nothing :
  ~ (forall (op : Operation) (w : World),
        legal op (store w) = false ->
        state (store (snd (run op w))) = state (store w) /\
        reports_failure (fst (run op w))).
Proof.
  intro H.
  destruct (H StartConnecting
              {| store := {| state := idle; client := None;
                             serverUrl := None |};
                 calls := [] |} eq_refl) as [_ Hr].
  discriminate Hr.
Qed.

(** C2, amended. For every world and every transition operation: the
    operation never throws; the state after it is the state before, or
    the target the table gives for a legal operation; [serverUrl] is
    kept, and [client] is kept unless the operation is [reset], which
    clears it; an operation that is not legal changes nothing, and it
    returns [false] when it is [startRecording] or [stopRecording] and
    [undefined] otherwise. In particular [startRecording] from [idle]
    without a client returns [false] and changes nothing. *)
Theorem transitions_follow_table
        (op : Operation) (w : World)
        (u : option string) (l : list ClientCall) :
  (exists v, fst (run op w) = Normal v) /\
  (state (store (snd (run op w))) = state (store w) \/
   (legal op (store w) = true /\
    table (state (store w)) op = Some (state (store (snd (run op w)))))) /\
  serverUrl (store (snd (run op w))) = serverUrl (store w) /\
  (client (store (snd (run op w))) = client (store w) \/
   (op = Reset /\ client (store (snd (run op w))) = None)) /\
  (legal op (store w) = true \/
   run op w =
   (Normal match op with
           | StartRecording | StopRecording => boolean false
           | _ => undefined
           end, w)) /\
  startRecording
    {| store := {| state := idle; client := None; serverUrl := u |};
       calls := l |} =
  (Normal false,
   {| store := {| state := idle; client := None; serverUrl := u |};
      calls := l |}).
Proof.
  destruct (legal op (store w)) eqn:L.
  - destruct w as [[s c u0] l0]. unfold legal in L. simpl in L.
    destruct op, s; simpl in L; try discriminate L;
      try (run_store; simpl;
           repeat split; eauto; fail).
    + destruct c as [c|]; [| discriminate L].
      pose proof (startRecording_idle c u0 l0) as H. cbv zeta in H.
      unfold run, returning, bind, ret.
      destruct (accepts c l0 _).
      * rewrite H. simpl. repeat split; eauto.
      * destruct H as (H1 & H2 & _).
        destruct (startRecording _) as [r w'].
        simpl in H1, H2. subst r. simpl. rewrite H2. simpl.
        repeat split; eauto.
    + destruct c as [c|]; [| discriminate L].
      pose proof (stopRecording_recording c u0 l0) as H. cbv zeta in H.
      unfold run, returning, bind, ret.
      destruct (accepts c l0 _).
      * rewrite H. simpl. repeat split; eauto.
      * destruct H as (H1 & H2 & _).
        destruct (stopRecording _) as [r w'].
        simpl in H1, H2. subst r. simpl. rewrite H2. simpl.
        repeat split; eauto.
  - rewrite (run_illegal op w L). simpl.
    repeat split; eauto.
Qed.

(** *** Further properties of the store *)

Lemma mic_app (l1 l2 : list ClientCall) :
  mic (l1 ++ l2) = match mic l2 with
                   | Some b => Some b
                   | None => mic l1
                   end.
Proof.
  induction l1 as [|m l1 IH]; simpl.
  - destruct (mic l2); reflexivity.
  - rewrite IH. destruct (mic l2); reflexivity.
Qed.

(** An operation keeps the client or clears it. *)
Lemma transitions_step_client (op : Operation) (w : World) :
  client (store (snd (run op w))) = client (store w) \/
  client (store (snd (run op w))) = None.
Proof.
  destruct w as [[s c u] l].
  destruct op, s; run_store; simpl; auto;
    destruct c as [c|]; simpl; auto;
    destruct (throws c l _); simpl; auto;
    destruct (throws c (l ++ _) _); simpl; auto.
Qed.

(** X9. What [startRecording] does from [idle] with a client, in full:
    it sends the [start-recording] message; if that throws it returns
    [false] and never calls [enableMic]; otherwise it calls
    [enableMic(true)], and if that throws it returns [false] with the
    state still [idle] although the message has been sent (nothing is
    undone); only when both calls return does the state become
    [recording]. [stopRecording] from [recording] is the mirror image:
    [enableMic(false)] first, then the [stop-recording] message, so a
    throwing message leaves the state [recording] with the microphone
    already disabled. *)
Theorem recording_calls_are_not_undone
        (c : PipecatClient) (u : option string) (l : list ClientCall) :
  let at_state st l' :=
    {| store := {| state := st; client := Some c; serverUrl := u |};
       calls := l' |} in
  let start_msg := sendClientMessage "start-recording" in
  let stop_msg := sendClientMessage "stop-recording" in
  startRecording (at_state idle l) =
  match throws c l start_msg with
  | Some _ => (Normal false, at_state idle (l ++ [start_msg]))
  | None =>
      match throws c (l ++ [start_msg]) (enableMic true) with
      | Some _ =>
          (Normal false, at_state idle (l ++ [start_msg; enableMic true]))
      | None =>
          (Normal true, at_state recording (l ++ [start_msg; enableMic true]))
      end
  end /\
  stopRecording (at_state recording l) =
  match throws c l (enableMic false) with
  | Some _ => (Normal false, at_state recording (l ++ [enableMic false]))
  | None =>
      match throws c (l ++ [enableMic false]) stop_msg with
      | Some _ =>
          (Normal false,
           at_state recording (l ++ [enableMic false; stop_msg]))
      | None =>
          (Normal true,
           at_state processing (l ++ [enableMic false; stop_msg]))
      end
  end.
Proof.
  cbv zeta. split; run_store; simpl.
  - destruct (throws c l _); [reflexivity |]. simpl.
    destruct (throws c (l ++ _) _); simpl; now rewrite <- app_assoc.
  - destruct (throws c l _); [reflexivity |]. simpl.
    destruct (throws c (l ++ _) _); simpl; now rewrite <- app_assoc.
Qed.

(** X10. One dictation: from [idle], with a client that accepts the
    four calls, [startRecording], [stopRecording] and [handleResponse]
    in a row return [true], [true] and nothing, bring the state back
    to [idle] with the same client and server url, and the client has
    received exactly: the [start-recording] message, [enableMic(true)],
    [enableMic(false)], the [stop-recording] message. *)
Theorem dictation_round_trip
        (c : PipecatClient) (u : option string) (l : list ClientCall) :
  let w := {| store := {| state := idle; client := Some c; serverUrl := u |};
              calls := l |} in
  let session := [sendClientMessage "start-recording"; enableMic true;
                  enableMic false; sendClientMessage "stop-recording"] in
  accepts c l session = true ->
  fst (startRecording w) = Normal true /\
  fst (stopRecording (snd (startRecording w))) = Normal true /\
  snd (handleResponse (snd (stopRecording (snd (startRecording w))))) =
  {| store := store w; calls := l ++ session |}.
Proof.
  cbv zeta. simpl. run_store. simpl.
  destruct (throws c l _); [discriminate |]. simpl.
  destruct (throws c (l ++ _) _); [discriminate |]. simpl.
  destruct (throws c ((l ++ _) ++ _) _); [discriminate |]. simpl.
  destruct (throws c (((l ++ _) ++ _) ++ _) _); [discriminate |]. simpl.
  intros _. rewrite <- !app_assoc. simpl. auto.
Qed.

(** X11. Without a client nothing is ever recorded: from a world whose
    client is [null] and whose state is neither [recording] nor
    [processing], no run of transition operations reaches [recording]
    or [processing], sets a client or calls one. *)
Theorem no_client_never_records (ops : list Operation) (w : World) :
  client (store w) = None ->
  state (store w) <> recording ->
  state (store w) <> processing ->
  client (store (run_all ops w)) = None /\
  state (store (run_all ops w)) <> recording /\
  state (store (run_all ops w)) <> processing /\
  calls (run_all ops w) = calls w.
Proof.
  revert w. induction ops as [|op ops IH]; intros w C R P; simpl.
  - auto.
  - assert (Step : client (store (snd (run op w))) = None /\
                   state (store (snd (run op w))) <> recording /\
                   state (store (snd (run op w))) <> processing /\
                   calls (snd (run op w)) = calls w).
    { destruct w as [[s c u] l]. simpl in C, R, P. subst c.
      destruct op, s; run_store; simpl;
        repeat split; try discriminate; try reflexivity;
        try contradiction. }
    destruct Step as (C1 & R1 & P1 & L1).
    destruct (IH _ C1 R1 P1) as (C2 & R2 & P2 & L2).
    repeat split; auto. congruence.
Qed.

(** X12. Only [startRecording] and [stopRecording] call the client, and
    each call of them adds at most two calls to what the client has
    received; nothing the client received is ever forgotten. In
    particular [handleDisconnected] and [reset] do not disable the
    microphone. *)
Theorem only_recording_calls_client (op : Operation) (w : World) :
  exists extra : list ClientCall,
    calls (snd (run op w)) = calls w ++ extra /\
    length extra <= 2 /\
    match op with
    | StartRecording | StopRecording => True
    | _ => extra = []
    end.
Proof.
  destruct (legal op (store w)) eqn:Lg.
  - destruct w as [[s c u] l]. unfold legal in Lg. simpl in Lg.
    destruct op, s; simpl in Lg; try discriminate Lg;
      try (exists []; run_store; simpl; rewrite app_nil_r;
           repeat split; auto; fail).
    + destruct c as [c|]; [| discriminate Lg].
      pose proof (startRecording_idle c u l) as H. cbv zeta in H.
      unfold run, returning, bind, ret.
      destruct (accepts c l _).
      * rewrite H. simpl. eexists. repeat split; simpl; auto.
      * destruct H as (_ & _ & n & Hn & Hc).
        destruct (startRecording _) as [[r|e] w']; simpl in Hc |- *;
          rewrite Hc; eexists; (split; [reflexivity |]);
          (split; [| exact I]);
          destruct n as [|[|n]]; simpl; lia.
    + destruct c as [c|]; [| discriminate Lg].
      pose proof (stopRecording_recording c u l) as H. cbv zeta in H.
      unfold run, returning, bind, ret.
      destruct (accepts c l _).
      * rewrite H. simpl. eexists. repeat split; simpl; auto.
      * destruct H as (_ & _ & n & Hn & Hc).
        destruct (stopRecording _) as [[r|e] w']; simpl in Hc |- *;
          rewrite Hc; eexists; (split; [reflexivity |]);
          (split; [| exact I]);
          destruct n as [|[|n]]; simpl; lia.
  - rewrite (run_illegal op w Lg). simpl. exists [].
    rewrite app_nil_r. repeat split; auto. destruct op; auto.
Qed.

(** X13. With clients that never throw, the state tells the position
    of the microphone: over any run of transition operations, whenever
    the state is [recording] the last [enableMic] call the client
    received is [enableMic(true)], and whenever it is [processing] the
    last one is [enableMic(false)] (given that this holds to begin
    with). *)
Theorem recording_means_mic_enabled (ops : list Operation) (w : World) :
  (forall c, client (store w) = Some c -> reliable c) ->
  (state (store w) = recording -> mic (calls w) = Some true) ->
  (state (store w) = processing -> mic (calls w) = Some false) ->
  (state (store (run_all ops w)) = recording ->
   mic (calls (run_all ops w)) = Some true) /\
  (state (store (run_all ops w)) = processing ->
   mic (calls (run_all ops w)) = Some false).
Proof.
  revert w. induction ops as [|op ops IH]; intros w Rel R P; simpl.
  - auto.
  - apply IH.
    + intros c Hc. apply Rel.
      destruct (transitions_step_client op w) as [E|E];
        rewrite E in Hc; [exact Hc | discriminate Hc].
    + destruct w as [[s c u] l]. simpl in Rel, R, P.
      destruct op, s; run_store; simpl; try discriminate; auto;
        destruct c as [c|]; simpl; try discriminate; auto;
        rewrite ?(Rel c eq_refl); simpl;
        rewrite ?(Rel c eq_refl); simpl; try discriminate; intros _;
        rewrite !mic_app; reflexivity.
    + destruct w as [[s c u] l]. simpl in Rel, R, P.
      destruct op, s; run_store; simpl; try discriminate; auto;
        destruct c as [c|]; simpl; try discriminate; auto;
        rewrite ?(Rel c eq_refl); simpl;
        rewrite ?(Rel c eq_refl); simpl; try discriminate; intros _;
        rewrite !mic_app; reflexivity.
Qed.

Lemma recording_means_mic_enabled_witness :
  mic (calls (run_all [HandleConnected; StartRecording; StartConnecting]
                {| store := {| state := disconnected;
                               client := Some obliging_client;
                               serverUrl := None |};
                   calls := [] |})) = Some true.
Proof.
  refine (proj1 (@recording_means_mic_enabled
                   [HandleConnected; StartRecording; StartConnecting]
                   {| store := {| state := disconnected;
                                  client := Some obliging_client;
                                  serverUrl := None |};
                      calls := [] |} _ _ _) eq_refl).
  - intros c H. inversion H. intros before m. reflexivity.
  - intro H. discriminate H.
  - intro H. discriminate H.
Defined.

Lemma dictation_round_trip_witness :
  snd (handleResponse
         (snd (stopRecording
                 (snd (startRecording
                         {| store := {| state := idle;
                                        client := Some obliging_client;
                                        serverUrl := None |};
                            calls := [] |}))))) =
  {| store := {| state := idle; client := Some obliging_client;
                 serverUrl := None |};
     calls := [sendClientMessage "start-recording"; enableMic true;
               enableMic false; sendClientMessage "stop-recording"] |}.
Proof.
  exact (proj2 (proj2 (@dictation_round_trip obliging_client None []
                         eq_refl))).
Defined.

Lemma no_client_never_records_witness :
  calls (run_all [StartConnecting; HandleConnected; StartRecording;
                  StopRecording; HandleResponse]
                 initial) = [].
Proof.
  exact (proj2 (proj2 (proj2
           (@no_client_never_records
              [StartConnecting; HandleConnected; StartRecording;
               StopRecording; HandleResponse]
              initial eq_refl
              ltac:(discriminate) ltac:(discriminate))))).
Defined.

End RecordingStoreFacts.

(** * Properties of the bridge *)

Module NativeAudioBridgeFacts.
Import Js NativeAudioBridge.

Ltac run_bridge :=
  cbv [perform start stop pause resume audioContext_resume listen
       assign_unlisten invoke_await invoke_detached call_unlisten
       received bind ret gets modify fst snd
       audioContextState unlisten listeners nextListener invoked].

(** With a subscription in place, [start] leaves the subscription
    alone, whatever its completion. *)
Lemma start_subscribed (h : Host) (d : option string) (w : World) (id : nat) :
  unlisten w = Some id ->
  unlisten (snd (start h d w)) = Some id /\
  listeners (snd (start h d w)) = listeners w /\
  nextListener (snd (start h d w)) = nextListener w.
Proof.
  destruct w as [s u ls n inv]. simpl. intros ->.
  run_bridge.
  destruct s, (resume_rejects h), (invoke_rejects h (start_native_mic d));
    simpl; repeat split.
Qed.

(** Without one, a [start] that returns has registered one listener
    and remembers it. *)
Lemma start_unsubscribed_normal (h : Host) (d : option string)
      (w w' : World) :
  unlisten w = None ->
  start h d w = (Normal tt, w') ->
  unlisten w' = Some (nextListener w) /\
  listeners w' = listeners w ++ [nextListener w] /\
  nextListener w' = S (nextListener w).
Proof.
  destruct w as [s u ls n inv]. simpl. intros ->.
  run_bridge.
  destruct s, (resume_rejects h), (listen_rejects h),
    (invoke_rejects h (start_native_mic d));
    simpl; intro H; inversion H; subst; simpl; repeat split.
Qed.

(** Without one, a [start] that throws either registered nothing, or
    was rejected by the capture subsystem after it had registered a
    listener, which stays. *)
Lemma start_unsubscribed_throw (h : Host) (d : option string)
      (w w' : World) (e : Error) :
  unlisten w = None ->
  start h d w = (Throw e, w') ->
  (unlisten w' = None /\ listeners w' = listeners w /\
   ((audioContextState w = suspended /\ resume_rejects h = Some e) \/
    listen_rejects h = Some e)) \/
  (unlisten w' = Some (nextListener w) /\
   listeners w' = listeners w ++ [nextListener w] /\
   invoke_rejects h (start_native_mic d) = Some e).
Proof.
  destruct w as [s u ls n inv]. simpl. intros ->.
  run_bridge.
  destruct s, (resume_rejects h) eqn:R, (listen_rejects h) eqn:L,
    (invoke_rejects h (start_native_mic d)) eqn:I;
    simpl; intro H; inversion H; subst; simpl; auto 10.
Qed.

Lemma stop_unsubscribes (w : World) :
  subscription_consistent w ->
  unlisten (snd (stop w)) = None /\
  listeners (snd (stop w)) = [] /\
  nextListener (snd (stop w)) = nextListener w.
Proof.
  destruct w as [s u ls n inv]. unfold subscription_consistent. simpl.
  intros ->. run_bridge.
  destruct u as [id|]; simpl; repeat split.
  destruct (Nat.eq_dec id id) as [_|N]; [reflexivity | now destruct N].
Qed.

Lemma perform_consistent (c : Call) (w : World) :
  subscription_consistent w ->
  subscription_consistent (snd (perform c w)).
Proof.
  intro C. destruct c as [h d| | |].
  - simpl. destruct (unlisten w) as [id|] eqn:U.
    + destruct (start_subscribed h d w U) as (U' & L' & _).
      unfold subscription_consistent in *. now rewrite U', L', C, U.
    + destruct (start h d w) as [[[]|e] w'] eqn:S; simpl.
      * destruct (start_unsubscribed_normal h d w U S) as (U' & L' & _).
        unfold subscription_consistent in *. now rewrite U', L', C, U.
      * unfold subscription_consistent in *.
        destruct (start_unsubscribed_throw h d w U S)
          as [(U' & L' & _) | (U' & L' & _)];
          now rewrite U', L', C, U.
  - simpl. destruct (stop_unsubscribes C) as (U' & L' & _).
    unfold subscription_consistent. now rewrite U', L'.
  - exact C.
  - exact C.
Qed.

(** Whatever calls were made on a fresh bridge, run one at a time, the
    listeners registered are exactly the one [unlisten] remembers. *)
Lemma after_consistent (cs : list Call) (w : World) :
  subscription_consistent w ->
  subscription_consistent (after cs w).
Proof.
  revert w. induction cs as [|c cs IH]; intros w C; simpl.
  - exact C.
  - apply IH, perform_consistent, C.
Qed.

Lemma created_consistent (s : AudioContextState) :
  subscription_consistent (created s).
Proof. reflexivity. Qed.

(** One registered listener: one message, one write. *)
Lemma emit_single (sample : Type) (payload : list sample) (w : World)
      (p : NativeAudioProcessor.t sample) (id : nat) :
  listeners w = [id] ->
  posted payload w = [NativeAudioProcessor.audio_data payload] /\
  emit payload w p =
  snd (NativeAudioProcessor.onmessage
         (NativeAudioProcessor.audio_data payload) p).
Proof.
  intro L. unfold emit, posted. rewrite L. split; reflexivity.
Qed.

(** Further successful calls of [start] leave an established
    subscription as it is, and register nothing. *)
Lemma starts_subscribed (hs : list (Host * option string))
      (w w' : World) (id : nat) :
  unlisten w = Some id ->
  starts hs w = (Normal tt, w') ->
  unlisten w' = Some id /\ listeners w' = listeners w /\
  nextListener w' = nextListener w.
Proof.
  revert w. induction hs as [|[h d] hs IH]; intros w U S.
  - inversion S; subst. auto.
  - simpl in S. unfold bind in S.
    destruct (start_subscribed h d w U) as (U1 & L1 & N1).
    destruct (start h d w) as [[[]|e] w1]; [| discriminate S].
    simpl in U1, L1, N1.
    destruct (IH w1 U1 S) as (U2 & L2 & N2).
    rewrite L2, N2, L1, N1. auto.
Qed.

(** Calls awaited one after the other. On a bridge in any state
    reached by earlier calls, a successful [start] followed by any
    number of further successful [start] calls, each awaited before the
    next, leaves exactly one listener registered. The first call registers it only if none was remembered;
    no later call registers another, so one inbound chunk posts one
    message and causes one write of the ring buffer. [stop] then removes
    the listener and forgets it, and a successful [start] after that
    registers a new one. *)
Theorem start_subscribes_once
        (cs : list Call) (s0 : AudioContextState)
        (h : Host) (d : option string)
        (rest : list (Host * option string)) (w1 wn : World) :
  start h d (after cs (created s0)) = (Normal tt, w1) ->
  starts rest w1 = (Normal tt, wn) ->
  exists id : nat,
    (unlisten w1 = Some id /\ listeners w1 = [id]) /\
    match unlisten (after cs (created s0)) with
    | Some id0 =>
        id = id0 /\ nextListener w1 = nextListener (after cs (created s0))
    | None =>
        id = nextListener (after cs (created s0)) /\
        nextListener w1 = S (nextListener (after cs (created s0)))
    end /\
    (unlisten wn = Some id /\ listeners wn = [id] /\
     nextListener wn = nextListener w1) /\
    (forall (sample : Type) (payload : list sample)
            (p : NativeAudioProcessor.t sample),
        posted payload wn = [NativeAudioProcessor.audio_data payload] /\
        emit payload wn p =
        snd (NativeAudioProcessor.onmessage
               (NativeAudioProcessor.audio_data payload) p)) /\
    (unlisten (snd (stop wn)) = None /\ listeners (snd (stop wn)) = []) /\
    (forall (h' : Host) (d' : option string) (w' : World),
        start h' d' (snd (stop wn)) = (Normal tt, w') ->
        unlisten w' = Some (nextListener wn) /\
        listeners w' = [nextListener wn]).
Proof.
  intros S1 Sn.
  pose proof (after_consistent cs (created_consistent s0)) as C0.
  set (w0 := after cs (created s0)) in *.
  assert (First : exists id,
             (unlisten w1 = Some id /\ listeners w1 = [id]) /\
             match unlisten w0 with
             | Some id0 => id = id0 /\ nextListener w1 = nextListener w0
             | None => id = nextListener w0 /\
                       nextListener w1 = S (nextListener w0)
             end).
  { unfold subscription_consistent in C0.
    destruct (unlisten w0) as [id0|] eqn:U0.
    - destruct (start_subscribed h d w0 U0) as (U1 & L1 & N1).
      rewrite S1 in U1, L1, N1. simpl in U1, L1, N1.
      exists id0. rewrite L1, C0. auto.
    - destruct (start_unsubscribed_normal h d w0 U0 S1) as (U1 & L1 & N1).
      exists (nextListener w0). rewrite L1, C0. auto. }
  destruct First as (id & (U1 & L1) & F).
  destruct (starts_subscribed rest w1 U1 Sn) as (Un & Ln & Nn).
  rewrite L1 in Ln.
  assert (C : subscription_consistent wn).
  { unfold subscription_consistent. now rewrite Un, Ln. }
  destruct (stop_unsubscribes C) as (Us & Ls & Ns).
  exists id.
  split; [auto |]. split; [exact F |]. split; [auto |].
  split; [| split; [auto |]].
  - intros sample payload p. apply (emit_single payload wn p Ln).
  - intros h' d' w' S'.
    destruct (start_unsubscribed_normal h' d' _ Us S') as (U' & L' & _).
    rewrite U', L', Ls, Ns. auto.
Qed.

Lemma start_subscribes_once_witness :
  exists id : nat,
    listeners
      (snd (starts [(obliging, Some "usb-mic"%string); (obliging, None)]
              (snd (start obliging None
                      (after [Start no_device (Some "gone"%string); Pause]
                             (created suspended)))))) = [id].
Proof.
  destruct (@start_subscribes_once
              [Start no_device (Some "gone"%string); Pause] suspended
              obliging None
              [(obliging, Some "usb-mic"%string); (obliging, None)]
              _ _ eq_refl eq_refl)
    as (id & _ & _ & (_ & L & _) & _).
  exists id. exact L.
Defined.

(** The two parts of [start], one right after the other, are [start]. *)
Lemma start_cut (h : Host) (d : option string) (w : World) :
  start h d w = bind (start_to_listen h) (start_from_listen h d) w.
Proof.
  destruct w as [s u ls n inv].
  cbv [start start_to_listen start_from_listen audioContext_resume listen
       assign_unlisten invoke_await received bind ret gets modify
       audioContextState unlisten listeners nextListener invoked].
  destruct s, (resume_rejects h), u, (listen_rejects h); reflexivity.
Qed.

(** C9 fails on the code. A second [start] made while the first one
    waits for [listen] (the host rejects nothing): [unlisten] is still
    unset when the second call tests it, so both calls register a
    listener and both return. Two listeners are registered and only the
    second is remembered; one inbound chunk posts two messages and is
    written to the ring buffer twice; [stop] removes the second
    listener only, and the first goes on writing every chunk. A later
    [start] registers a third next to it. *)
Theorem overlapping_starts_subscribe_twice
        (s0 : AudioContextState) (d1 d2 : option string) :
  let w := snd (start_overlapping obliging d1 obliging d2 (created s0)) in
  fst (start_overlapping obliging d1 obliging d2 (created s0)) =
  (Normal tt, Normal tt) /\
  listeners w = [0; 1] /\
  unlisten w = Some 1 /\
  invoked w = [start_native_mic d1; start_native_mic d2] /\
  (forall (sample : Type) (payload : list sample)
          (p : NativeAudioProcessor.t sample),
      posted payload w =
      [NativeAudioProcessor.audio_data payload;
       NativeAudioProcessor.audio_data payload] /\
      emit payload w p =
      snd (NativeAudioProcessor.onmessage
             (NativeAudioProcessor.audio_data payload)
             (snd (NativeAudioProcessor.onmessage
                     (NativeAudioProcessor.audio_data payload) p)))) /\
  listeners (snd (stop w)) = [0] /\
  unlisten (snd (stop w)) = None /\
  listeners (snd (start obliging d1 (snd (stop w)))) = [0; 2].
Proof.
  cbv zeta. destruct s0; repeat split; reflexivity.
Qed.

(** C8, as stated: after a failed [start] the subscription is as it
    was before the call. It fails when the capture subsystem rejects
    the device on a bridge that was not yet subscribed: the listener
    registered by the call is still registered. *)
Lemma rejected_device_leaves_listener :
  ~ (forall (h : Host) (d : option string) (w w' : World) (e : Error),
        start h d w = (Throw e, w') ->
        unlisten w' = unlisten w /\ listeners w' = listeners w).
Proof.
  intro H.
  destruct (H no_device (Some "gone"%string) (created suspended) _ _ eq_refl)
    as [U _].
  discriminate U.
Qed.

(** C8, amended. A rejection by the host is reported to the caller,
    and [start] cleans nothing up. If the render pipeline is suspended
    and cannot be resumed, [start] throws that error and nothing has
    changed. If the listener cannot be registered, [start] throws that
    error, no listener is registered or remembered and no command was
    invoked. If the capture subsystem rejects the device, [start] throws
    that error; a bridge that was subscribed before the call is
    subscribed as before, but when this very call registered the
    listener, that listener stays registered and remembered. Every
    failure of [start] is one of these. *)
Theorem failed_start_subscription
        (h : Host) (d : option string) (w : World) :
  (forall e,
      audioContextState w = suspended ->
      resume_rejects h = Some e ->
      start h d w = (Throw e, w)) /\
  (forall e,
      audioContextState w <> suspended \/ resume_rejects h = None ->
      unlisten w = None ->
      listen_rejects h = Some e ->
      fst (start h d w) = Throw e /\
      unlisten (snd (start h d w)) = None /\
      listeners (snd (start h d w)) = listeners w /\
      nextListener (snd (start h d w)) = nextListener w /\
      invoked (snd (start h d w)) = invoked w) /\
  (forall e id,
      audioContextState w <> suspended \/ resume_rejects h = None ->
      unlisten w = Some id ->
      invoke_rejects h (start_native_mic d) = Some e ->
      fst (start h d w) = Throw e /\
      unlisten (snd (start h d w)) = Some id /\
      listeners (snd (start h d w)) = listeners w) /\
  (forall e,
      audioContextState w <> suspended \/ resume_rejects h = None ->
      unlisten w = None ->
      listen_rejects h = None ->
      invoke_rejects h (start_native_mic d) = Some e ->
      fst (start h d w) = Throw e /\
      unlisten (snd (start h d w)) = Some (nextListener w) /\
      listeners (snd (start h d w)) = listeners w ++ [nextListener w]) /\
  (forall e w',
      start h d w = (Throw e, w') ->
      (unlisten w' = unlisten w /\ listeners w' = listeners w) \/
      (unlisten w = None /\
       listen_rejects h = None /\
       invoke_rejects h (start_native_mic d) = Some e /\
       unlisten w' = Some (nextListener w) /\
       listeners w' = listeners w ++ [nextListener w])).
Proof.
  destruct w as [s u ls n inv]. simpl.
  split; [| split; [| split; [| split]]].
  - intros e S R. subst s. run_bridge. now rewrite R.
  - intros e Res U L. subst u. run_bridge.
    destruct s, (resume_rejects h) eqn:R; simpl;
      try (destruct Res as [Res|Res]; [now destruct Res | discriminate Res]);
      rewrite L; simpl; auto.
  - intros e id Res U I. subst u. run_bridge.
    destruct s, (resume_rejects h) eqn:R; simpl;
      try (destruct Res as [Res|Res]; [now destruct Res | discriminate Res]);
      rewrite I; simpl; auto.
  - intros e Res U L I. subst u. run_bridge.
    destruct s, (resume_rejects h) eqn:R; simpl;
      try (destruct Res as [Res|Res]; [now destruct Res | discriminate Res]);
      rewrite L; simpl; rewrite I; simpl; auto.
  - intros e w' S.
    destruct u as [id|].
    + left.
      destruct (start_subscribed h d
                  {| audioContextState := s; unlisten := Some id;
                     listeners := ls; nextListener := n; invoked := inv |}
                  eq_refl) as (U' & L' & _).
      rewrite S in U', L'. simpl in U', L'. now rewrite U', L'.
    + revert S. run_bridge.
      destruct s, (resume_rejects h), (listen_rejects h),
        (invoke_rejects h (start_native_mic d)) eqn:I;
        simpl; intro S; inversion S; subst; simpl; auto 10.
Qed.

(** *** Further properties of the bridge *)

(** X14. Whatever calls of [start], [stop], [pause] and [resume] were
    made on a fresh bridge, one at a time and whether they returned or
    threw, at most one listener is registered, and it is registered
    exactly when [unlisten] remembers it: no listener is ever leaked or
    registered twice. *)
Theorem at_most_one_listener (cs : list Call) (s0 : AudioContextState) :
  subscription_consistent (after cs (created s0)) /\
  length (listeners (after cs (created s0))) <= 1.
Proof.
  pose proof (after_consistent cs (created_consistent s0)) as C.
  split; [exact C |].
  unfold subscription_consistent in C. rewrite C.
  destruct (unlisten _); simpl; lia.
Qed.

(** X15. [stop] can be called at any time: in every state the bridge
    can reach it returns without throwing, whatever the capture
    subsystem answers; it invokes [stop_native_mic] once, leaves no
    listener registered and none remembered, and keeps the audio
    context as it is. A second [stop] only invokes [stop_native_mic]
    again. *)
Theorem stop_is_safe (cs : list Call) (s0 : AudioContextState) :
  stop (after cs (created s0)) =
  (Normal tt,
   {| audioContextState := audioContextState (after cs (created s0));
      unlisten := None;
      listeners := [];
      nextListener := nextListener (after cs (created s0));
      invoked := invoked (after cs (created s0)) ++ [stop_native_mic] |}) /\
  stop (snd (stop (after cs (created s0)))) =
  (Normal tt,
   {| audioContextState := audioContextState (after cs (created s0));
      unlisten := None;
      listeners := [];
      nextListener := nextListener (after cs (created s0));
      invoked := invoked (after cs (created s0))
                   ++ [stop_native_mic; stop_native_mic] |}).
Proof.
  pose proof (after_consistent cs (created_consistent s0)) as C.
  destruct (after cs (created s0)) as [s u ls n inv].
  unfold subscription_consistent in C. simpl in C. subst ls.
  run_bridge. destruct u as [id|]; simpl.
  - destruct (Nat.eq_dec id id) as [_|N]; [| now destruct N].
    rewrite <- app_assoc. split; reflexivity.
  - rewrite <- app_assoc. split; reflexivity.
Qed.

(** X16. The capture is never started behind a suspended audio context
    or without a listener. In any state, [start] either throws before
    invoking anything, or invokes [start_native_mic] with the device it
    was given as its only command; by then a listener is remembered
    and an audio context that was suspended is running, and [start]
    returns exactly when that command is accepted. *)
Theorem capture_starts_last (h : Host) (d : option string) (w : World) :
  (exists e, fst (start h d w) = Throw e /\
             invoked (snd (start h d w)) = invoked w) \/
  (invoked (snd (start h d w)) = invoked w ++ [start_native_mic d] /\
   unlisten (snd (start h d w)) <> None /\
   (audioContextState w = suspended ->
    audioContextState (snd (start h d w)) = running) /\
   fst (start h d w) =
   match invoke_rejects h (start_native_mic d) with
   | Some e => Throw e
   | None => Normal tt
   end).
Proof.
  destruct w as [s u ls n inv]. run_bridge.
  destruct s, (resume_rejects h), u, (listen_rejects h); simpl;
    try (left; eexists; split; reflexivity);
    right; destruct (invoke_rejects h (start_native_mic d)); simpl;
    repeat split; try discriminate; auto.
Qed.

End NativeAudioBridgeFacts.

(** * Properties of the ring buffer *)

Module NativeAudioProcessorFacts.
Import Js NativeAudioProcessor.

Section Facts.
Variable sample : Type.
Variable zero : sample.

Implicit Types (this : t sample) (chunk : list sample).

(** *** Bulk copies *)

Lemma set_fits (target source : list sample) (offset : nat) :
  offset + length source <= length target ->
  set target source offset =
  Normal (firstn offset target ++ source
            ++ skipn (offset + length source) target).
Proof.
  intro H. unfold set.
  destruct (Nat.ltb_spec (length target) (offset + length source));
    [lia | reflexivity].
Qed.

Lemma set_overflows (target source : list sample) (offset : nat) :
  length target < offset + length source ->
  set target source offset = Throw RangeError.
Proof.
  intro H. unfold set.
  destruct (Nat.ltb_spec (length target) (offset + length source));
    [reflexivity | lia].
Qed.

Lemma set_length (target source result : list sample) (offset : nat) :
  set target source offset = Normal result ->
  length result = length target.
Proof.
  unfold set.
  destruct (Nat.ltb_spec (length target) (offset + length source))
    as [Hlt|Hle]; intro E; inversion E; subst.
  rewrite !length_app, length_firstn, length_skipn. lia.
Qed.

Lemma fill_zero (channel : list sample) :
  fill channel zero = repeat zero (length channel).
Proof. unfold fill. apply map_const. Qed.

(** *** What a write touches *)

Lemma onmessage_frame (data : MessageData sample) this :
  readIndex (snd (onmessage data this)) = readIndex this /\
  bufferSize (snd (onmessage data this)) = bufferSize this.
Proof.
  unfold onmessage.
  destruct (String.eqb _ _); [| split; reflexivity].
  destruct (set (buffer this) _ _) as [b1|e]; [| split; reflexivity].
  destruct (_ <? _).
  - destruct (set b1 _ _); split; reflexivity.
  - split; reflexivity.
Qed.

Lemma onmessage_buffer_length (data : MessageData sample) this :
  length (buffer (snd (onmessage data this))) = length (buffer this).
Proof.
  unfold onmessage.
  destruct (String.eqb _ _); [| reflexivity].
  destruct (set (buffer this) _ _) as [b1|e] eqn:S1; [| reflexivity].
  apply set_length in S1.
  destruct (_ <? _).
  - destruct (set b1 _ _) as [b2|e] eqn:S2; simpl; [| exact S1].
    apply set_length in S2. congruence.
  - exact S1.
Qed.

(** A write that returns has counted its samples, up to the size of
    the buffer. *)
Lemma onmessage_available chunk this this' :
  onmessage (audio_data chunk) this = (Normal tt, this') ->
  availableSamples this' =
  Nat.min (availableSamples this + length chunk) (bufferSize this).
Proof.
  unfold onmessage. simpl.
  destruct (set (buffer this) _ _) as [b1|e]; [| discriminate].
  destruct (_ <? _).
  - destruct (set b1 _ _); intro H; inversion H; reflexivity.
  - intro H; inversion H; reflexivity.
Qed.

(** The count stays within the size of the buffer, whether the write
    returns or throws. *)
Lemma onmessage_available_le (data : MessageData sample) this :
  availableSamples this <= bufferSize this ->
  availableSamples (snd (onmessage data this)) <= bufferSize this.
Proof.
  intro H. unfold onmessage.
  destruct (String.eqb _ _); [| exact H].
  destruct (set (buffer this) _ _) as [b1|e]; [| exact H].
  destruct (_ <? _).
  - destruct (set b1 _ _); simpl; [apply Nat.le_min_r | exact H].
  - simpl. apply Nat.le_min_r.
Qed.

Lemma deliver_available_le (chunks : list (list sample)) this :
  availableSamples this <= bufferSize this ->
  availableSamples (snd (deliver chunks this))
  <= bufferSize (snd (deliver chunks this)) /\
  bufferSize (snd (deliver chunks this)) = bufferSize this.
Proof.
  revert this. induction chunks as [|chunk chunks IH]; intros this H.
  - simpl. auto.
  - simpl.
    pose proof (onmessage_available_le (audio_data chunk) this H) as H1.
    destruct (onmessage_frame (audio_data chunk) this) as [_ B1].
    destruct (onmessage (audio_data chunk) this) as [c this1].
    simpl in H1, B1. rewrite <- B1 in H1.
    destruct (IH this1 H1) as [H2 B2].
    destruct (deliver chunks this1) as [cs this2]. simpl in *.
    split; [exact H2 | congruence].
Qed.

(** A write throws exactly when what is left of the chunk after the
    first copy is longer than the buffer. *)
Lemma onmessage_throws chunk this :
  wf this ->
  fst (onmessage (audio_data chunk) this) =
  if bufferSize this <? length chunk - (bufferSize this - writeIndex this)
  then Throw RangeError
  else Normal tt.
Proof.
  intros (P & L & W & _). unfold onmessage. simpl.
  set (len := length chunk).
  set (firstPart := Nat.min len (bufferSize this - writeIndex this)).
  assert (F : length (subarray chunk 0 firstPart) = firstPart).
  { unfold subarray. simpl. rewrite Nat.sub_0_r, length_firstn.
    fold len. unfold firstPart. lia. }
  rewrite set_fits by (rewrite F; unfold firstPart; lia).
  assert (R : length (subarray_from chunk firstPart) = len - firstPart).
  { unfold subarray_from. now rewrite length_skipn. }
  match goal with
  | |- context [set ?b (subarray_from chunk firstPart) 0] =>
      assert (B : length b = bufferSize this)
  end.
  { rewrite !length_app, length_firstn, length_skipn, F.
    unfold firstPart. lia. }
  destruct (Nat.ltb_spec firstPart len) as [Hw|Hw].
  - destruct (Nat.ltb_spec (bufferSize this)
                           (len - (bufferSize this - writeIndex this)))
      as [Ho|Ho].
    + rewrite set_overflows; [reflexivity |].
      rewrite B, R. unfold firstPart. lia.
    + rewrite set_fits; [reflexivity |].
      rewrite B, R. unfold firstPart. lia.
  - destruct (Nat.ltb_spec (bufferSize this)
                           (len - (bufferSize this - writeIndex this)))
      as [Ho|Ho]; [| reflexivity].
    unfold firstPart in Hw. lia.
Qed.

(** *** Well-formed fields *)

Lemma create_wf (size : nat) : 0 < size -> wf (create zero size).
Proof.
  intro H. unfold wf, create. simpl. rewrite repeat_length. lia.
Qed.

Lemma onmessage_wf (data : MessageData sample) this :
  wf this -> wf (snd (onmessage data this)).
Proof.
  intros (P & L & W & R & A).
  pose proof (onmessage_buffer_length data this) as L'.
  pose proof (onmessage_available_le data this A) as A'.
  destruct (onmessage_frame data this) as [R' B'].
  assert (W' : writeIndex (snd (onmessage data this)) < bufferSize this).
  { unfold onmessage.
    destruct (String.eqb _ _); [| exact W].
    destruct (set (buffer this) _ _) as [b1|e]; [| exact W].
    destruct (_ <? _).
    - destruct (set b1 _ _); simpl; [| exact W].
      apply Nat.mod_upper_bound. lia.
    - simpl. apply Nat.mod_upper_bound. lia. }
  unfold wf. rewrite B', L', R'. auto.
Qed.

Lemma process_frame_wf (frameSize : nat) (outputs : Outputs sample) this :
  wf this -> wf (snd (process_frame zero frameSize outputs this)).
Proof.
  intros (P & L & W & R & A). unfold process_frame.
  destruct (nth_error outputs 0) as [output|]; [| repeat split; assumption].
  destruct (nth_error output 0) as [channel|];
    [| repeat split; assumption].
  destruct (_ <=? _); [| repeat split; assumption].
  destruct (set channel _ _) as [c1|e]; [| repeat split; assumption].
  destruct (_ <? _).
  - destruct (set c1 _ _); [| repeat split; assumption].
    unfold wf. simpl. repeat split; try assumption.
    + apply Nat.mod_upper_bound. lia.
    + lia.
  - unfold wf. simpl. repeat split; try assumption.
    + apply Nat.mod_upper_bound. lia.
    + lia.
Qed.

(** *** Reads *)

Lemma process_frame_underrun (frameSize : nat) this
      (channel : list sample) (channels : list (list sample))
      (rest : Outputs sample) :
  availableSamples this < frameSize ->
  process_frame zero frameSize ((channel :: channels) :: rest) this =
  (Normal true, (repeat zero (length channel) :: channels) :: rest, this).
Proof.
  intro H. unfold process_frame. simpl.
  destruct (Nat.leb_spec frameSize (availableSamples this)); [lia |].
  now rewrite fill_zero.
Qed.

Lemma pull_underrun (frameSize : nat) this :
  availableSamples this < frameSize ->
  pull zero frameSize this = (Normal (repeat zero frameSize), this).
Proof.
  intro H. unfold pull.
  rewrite process_frame_underrun by exact H.
  simpl. now rewrite repeat_length.
Qed.

(** A read that does not cross the end of the buffer. *)
Lemma pull_no_wrap (frameSize : nat) this :
  length (buffer this) = bufferSize this ->
  frameSize <= availableSamples this ->
  readIndex this + frameSize <= bufferSize this ->
  pull zero frameSize this =
  (Normal (firstn frameSize (skipn (readIndex this) (buffer this))),
   {| bufferSize := bufferSize this;
      buffer := buffer this;
      writeIndex := writeIndex this;
      readIndex := (readIndex this + frameSize) mod bufferSize this;
      availableSamples := availableSamples this - frameSize |}).
Proof.
  intros L A R. unfold pull, process_frame. simpl.
  destruct (Nat.leb_spec frameSize (availableSamples this)); [| lia].
  rewrite Nat.min_l by lia.
  unfold subarray.
  replace (readIndex this + frameSize - readIndex this)
    with frameSize by lia.
  assert (F : length (firstn frameSize
                        (skipn (readIndex this) (buffer this)))
              = frameSize).
  { rewrite length_firstn, length_skipn. lia. }
  rewrite set_fits by (rewrite F, repeat_length; lia).
  rewrite Nat.ltb_irrefl. simpl.
  rewrite F, (skipn_all2 (repeat zero frameSize))
    by (rewrite repeat_length; lia).
  now rewrite app_nil_r.
Qed.

Lemma pulls_silence (frameSize j : nat) this :
  availableSamples this < frameSize ->
  pulls zero frameSize j this =
  (Normal (repeat zero (j * frameSize)), this).
Proof.
  intro H. induction j as [|j IH]; simpl.
  - reflexivity.
  - rewrite pull_underrun by exact H. rewrite IH.
    now rewrite repeat_app.
Qed.

(** Reads past the last whole frame add silence. *)
Lemma pulls_then_silence (frameSize q j : nat) :
  forall this this' (frames : list sample),
    pulls zero frameSize q this = (Normal frames, this') ->
    availableSamples this' < frameSize ->
    pulls zero frameSize (j + q) this =
    (Normal (frames ++ repeat zero (j * frameSize)), this').
Proof.
  induction q as [|q IH]; intros this this' frames E U.
  - rewrite Nat.add_0_r. simpl in E. inversion E; subst.
    now rewrite pulls_silence.
  - rewrite Nat.add_succ_r. simpl in E |- *.
    destruct (pull zero frameSize this) as [[frame|e] this1];
      [| discriminate E].
    destruct (pulls zero frameSize q this1) as [[rest|e] this2] eqn:E2;
      [| discriminate E].
    inversion E; subst.
    rewrite (IH this1 this' rest E2 U).
    now rewrite app_assoc.
Qed.

(** *** Writes that stay below the size of the buffer *)

Lemma onmessage_no_wrap chunk this :
  length (buffer this) = bufferSize this ->
  writeIndex this + length chunk <= bufferSize this ->
  onmessage (audio_data chunk) this =
  (Normal tt,
   {| bufferSize := bufferSize this;
      buffer := firstn (writeIndex this) (buffer this) ++ chunk
                  ++ skipn (writeIndex this + length chunk) (buffer this);
      writeIndex := (writeIndex this + length chunk) mod bufferSize this;
      readIndex := readIndex this;
      availableSamples :=
        Nat.min (availableSamples this + length chunk)
                (bufferSize this) |}).
Proof.
  intros L W. unfold onmessage. simpl.
  rewrite Nat.min_l by lia.
  unfold subarray. simpl. rewrite Nat.sub_0_r, firstn_all.
  rewrite set_fits by lia.
  now rewrite Nat.ltb_irrefl.
Qed.

Lemma firstn_add (a b : nat) (l : list sample) :
  firstn (a + b) l = firstn a l ++ firstn b (skipn a l).
Proof.
  revert l. induction a as [|a IH]; intro l; simpl.
  - reflexivity.
  - destruct l as [|x l]; simpl.
    + now rewrite firstn_nil.
    + now rewrite IH.
Qed.

(** *** Properties that hold for every sample type *)

(** C10. A write never assigns [readIndex] (nor [bufferSize]): for
    every processor and every message the read position after the
    handler is the one before, whether the handler returns or throws
    and whether or not unread samples were overwritten; so it is after
    any run of messages. *)
Theorem write_keeps_readIndex (data : MessageData sample)
        (chunks : list (list sample)) this :
  (readIndex (snd (onmessage data this)) = readIndex this /\
   bufferSize (snd (onmessage data this)) = bufferSize this) /\
  (readIndex (snd (deliver chunks this)) = readIndex this /\
   bufferSize (snd (deliver chunks this)) = bufferSize this).
Proof.
  split; [exact (onmessage_frame data this) |].
  revert this. induction chunks as [|chunk chunks IH]; intro this.
  - split; reflexivity.
  - simpl.
    destruct (onmessage_frame (audio_data chunk) this) as [R1 B1].
    destruct (onmessage (audio_data chunk) this) as [c this1].
    destruct (IH this1) as [R2 B2].
    destruct (deliver chunks this1) as [cs this2].
    simpl in *. split; congruence.
Qed.

(** C5. With fewer than [frameSize] samples available, [process]
    returns [true] without throwing, fills the channel of
    [frameSize] samples with zeros and leaves every field of the
    processor as it was; so it does on the fresh, empty buffer. *)
Theorem underrun_silence (frameSize size : nat) this
        (channel : list sample) (channels : list (list sample))
        (rest : Outputs sample) :
  length channel = frameSize ->
  availableSamples this < frameSize ->
  process_frame zero frameSize ((channel :: channels) :: rest) this =
  (Normal true, (repeat zero frameSize :: channels) :: rest, this) /\
  process_frame zero frameSize ((channel :: channels) :: rest)
                (create zero size) =
  (Normal true, (repeat zero frameSize :: channels) :: rest,
   create zero size).
Proof.
  intros L U. split.
  - rewrite process_frame_underrun by exact U. now rewrite L.
  - rewrite process_frame_underrun by (simpl; lia). now rewrite L.
Qed.

End Facts.

(** *** Runs on integer samples *)

Local Open Scope Z_scope.

Lemma underrun_silence_witness :
  process 0 [[repeat 7 128]] (constructor 0) =
  (Normal true, [[repeat 0 128]], constructor 0).
Proof.
  exact (proj2 (@underrun_silence Z 0 128 4800 (constructor 0)
                  (repeat 7 128) [] [] eq_refl
                  (proj1 (Nat.ltb_lt 0 128) eq_refl))).
Defined.

(** C6, as stated: whatever was written without overflow to an empty
    buffer comes back from some number of reads. It fails for a write
    shorter than a frame: one sample written to the fresh processor
    never comes back, every read returns 128 zeros. It also fails from
    a buffer that is empty after an overflow, where the read position
    was left behind the write position: size 8, ten samples written and
    two frames of four read; the four samples written next are read
    back after two stale ones. *)
Lemma short_write_is_never_drained :
  ~ (forall chunks : list (list Z),
        (length (concat chunks) <= 4800)%nat ->
        exists n,
          fst (pulls 0 128 n (snd (deliver chunks (constructor 0)))) =
          Normal (concat chunks)) /\
  (let emptied :=
     snd (pulls 0 4 2
            (snd (onmessage (audio_data (ramp 1 10)) (create 0 8)))) in
   availableSamples emptied = 0%nat /\
   readIndex emptied = 0%nat /\
   writeIndex emptied = 2%nat /\
   fst (pulls 0 4 1 (snd (deliver [[101; 102; 103; 104]] emptied))) =
   Normal [9; 10; 101; 102]).
Proof.
  split.
  - intro H.
    destruct (H [[1]]) as [n E].
    + apply Nat.leb_le. vm_compute. reflexivity.
    + rewrite pulls_silence in E.
      * simpl in E. inversion E as [E'].
        apply (f_equal (@length Z)) in E'.
        rewrite repeat_length in E'. simpl in E'. lia.
      * apply Nat.ltb_lt. vm_compute. reflexivity.
  - cbv zeta. repeat split; vm_compute; reflexivity.
Qed.

(** C1 fails on the code. Capacity 10, the twelve samples 1..12 in one
    write: ten samples are counted, but [readIndex] stays at 0 while the
    two newest samples have replaced the two oldest there, so the read
    of ten samples starts with 11 and 12 and is not [3..12]. The
    processor as constructed (4800 samples, frames of 128) does the same
    with 4802 samples: the first frame starts with 4801 and 4802. *)
Theorem overwrite_read_starts_at_newest :
  let this := snd (onmessage (audio_data (ramp 1 12)) (create 0 10)) in
  let real := snd (onmessage (audio_data (ramp 1 4802)) (constructor 0)) in
  fst (onmessage (audio_data (ramp 1 12)) (create 0 10)) = Normal tt /\
  availableSamples this = 10%nat /\
  readIndex this = 0%nat /\
  writeIndex this = 2%nat /\
  fst (pull 0 10 this) = Normal [11; 12; 3; 4; 5; 6; 7; 8; 9; 10] /\
  fst (pull 0 10 this) <> Normal (ramp 3 10) /\
  availableSamples real = 4800%nat /\
  fst (pull 0 128 real) = Normal (4801 :: 4802 :: ramp 3 126) /\
  fst (pull 0 128 real) <> Normal (ramp 3 128).
Proof.
  cbv zeta.
  repeat split; try (vm_compute; reflexivity);
    vm_compute; intro E; discriminate E.
Qed.

(** C4 fails on the code. A chunk of 9601 samples sent to the fresh
    processor: the second copy throws before the count is updated, so
    [availableSamples] is still 0 and not [min (0 + 9601) 4800]. With
    capacity 10 a chunk of 21 samples does the same. *)
Theorem oversize_chunk_is_not_counted :
  let this := constructor 0 in
  let chunk := repeat 1 9601 in
  availableSamples (snd (onmessage (audio_data chunk) this)) = 0%nat /\
  Nat.min (availableSamples this + length chunk) (bufferSize this) = 4800%nat /\
  availableSamples
    (snd (onmessage (audio_data (repeat 1 21)) (create 0 10))) = 0%nat /\
  Nat.min (0 + 21) 10 = 10%nat.
Proof.
  cbv zeta. repeat split; vm_compute; reflexivity.
Qed.

(** C7 fails on the code. The same chunk of 9601 samples makes the
    handler throw a RangeError, after it has copied the first 4800
    samples into the buffer; with capacity 10 a chunk of 21 samples
    throws, one of 20 does not. *)
Theorem oversize_chunk_throws :
  onmessage (audio_data (repeat 1 9601)) (constructor 0) =
  (Throw RangeError, with_buffer (constructor 0) (repeat 1 4800)) /\
  fst (onmessage (audio_data (repeat 1 21)) (create 0 10)) =
  Throw RangeError /\
  fst (onmessage (audio_data (repeat 1 20)) (create 0 10)) = Normal tt.
Proof.
  repeat split; vm_compute; reflexivity.
Qed.

End NativeAudioProcessorFacts.


(** * The ring buffer as a queue *)

Module NativeAudioProcessorQueue.
Import Js NativeAudioProcessor NativeAudioProcessorFacts.

Section Queue.
Variable sample : Type.
Variable zero : sample.

Implicit Types (this : t sample) (chunk q : list sample).

(** Case analysis on every comparison of the goal. *)
Ltac split_tests :=
  repeat match goal with
         | |- context [?a <? ?b] => destruct (Nat.ltb_spec a b)
         | |- context [?a <=? ?b] => destruct (Nat.leb_spec a b)
         end.

(** *** Indices around the end of the buffer *)

Lemma mod_wrap (x n : nat) :
  0 < n -> x < 2 * n -> x mod n = if x <? n then x else x - n.
Proof.
  intros P H. destruct (Nat.ltb_spec x n) as [L|L].
  - now apply Nat.mod_small.
  - replace x with (x - n + 1 * n) at 1 by lia.
    rewrite Nat.Div0.mod_add. apply Nat.mod_small. lia.
Qed.

(** *** Bulk copies, element by element *)

Lemma nth_set (target source result : list sample) (offset j : nat)
      (d : sample) :
  set target source offset = Normal result ->
  nth j result d =
  if (offset <=? j) && (j <? offset + length source)
  then nth (j - offset) source d
  else nth j target d.
Proof.
  unfold set.
  destruct (Nat.ltb_spec (length target) (offset + length source))
    as [Hlt|Hle]; intro E; inversion E; subst; clear E.
  assert (F : length (firstn offset target) = offset)
    by (rewrite length_firstn; lia).
  destruct (Nat.leb_spec offset j) as [Ho|Ho];
    destruct (Nat.ltb_spec j (offset + length source)) as [Hs|Hs]; simpl.
  - rewrite app_nth2 by lia. rewrite F. apply app_nth1. lia.
  - rewrite app_nth2 by lia. rewrite F.
    rewrite app_nth2 by lia. rewrite nth_skipn. f_equal. lia.
  - rewrite app_nth1 by lia. rewrite nth_firstn.
    destruct (Nat.ltb_spec j offset); [reflexivity | lia].
  - lia.
Qed.

(** A write of at most [bufferSize] samples returns; the buffer holds
    the chunk from [writeIndex] on, around the end, and is as before
    elsewhere. *)
Lemma onmessage_nth chunk this :
  wf this ->
  length chunk <= bufferSize this ->
  exists b : list sample,
    onmessage (audio_data chunk) this =
    (Normal tt,
     {| bufferSize := bufferSize this;
        buffer := b;
        writeIndex := (writeIndex this + length chunk) mod bufferSize this;
        readIndex := readIndex this;
        availableSamples :=
          Nat.min (availableSamples this + length chunk)
                  (bufferSize this) |}) /\
    length b = bufferSize this /\
    forall (j : nat) (d : sample),
      j < bufferSize this ->
      nth j b d =
      if writeIndex this <=? j
      then if j - writeIndex this <? length chunk
           then nth (j - writeIndex this) chunk d
           else nth j (buffer this) d
      else if j + bufferSize this - writeIndex this <? length chunk
           then nth (j + bufferSize this - writeIndex this) chunk d
           else nth j (buffer this) d.
Proof.
  intros (P & L & W & R & A) Len.
  unfold onmessage. simpl.
  set (len := length chunk) in *.
  set (firstPart := Nat.min len (bufferSize this - writeIndex this)).
  assert (F : length (subarray chunk 0 firstPart) = firstPart).
  { unfold subarray. simpl. rewrite Nat.sub_0_r, length_firstn.
    fold len. unfold firstPart. lia. }
  assert (F0 : forall k d, k < firstPart ->
                           nth k (subarray chunk 0 firstPart) d = nth k chunk d).
  { intros k d Hk. unfold subarray. simpl. rewrite Nat.sub_0_r, nth_firstn.
    destruct (Nat.ltb_spec k firstPart); [reflexivity | lia]. }
  assert (S1 : set (buffer this) (subarray chunk 0 firstPart)
                   (writeIndex this) =
               Normal (firstn (writeIndex this) (buffer this)
                         ++ subarray chunk 0 firstPart
                         ++ skipn (writeIndex this
                                   + length (subarray chunk 0 firstPart))
                                  (buffer this))).
  { apply set_fits. rewrite F. unfold firstPart. lia. }
  rewrite S1.
  pose proof (set_length _ _ _ S1) as L1.
  destruct (Nat.ltb_spec firstPart len) as [Hw|Hw].
  - assert (R1 : length (subarray_from chunk firstPart) = len - firstPart).
    { unfold subarray_from. now rewrite length_skipn. }
    match type of S1 with
    | set _ _ _ = Normal ?b => set (b1 := b) in *
    end.
    assert (S2 : set b1 (subarray_from chunk firstPart) 0 =
                 Normal (firstn 0 b1 ++ subarray_from chunk firstPart
                           ++ skipn (0 + length (subarray_from chunk
                                                               firstPart))
                                    b1)).
    { apply set_fits. rewrite R1, L1, L. lia. }
    rewrite S2.
    eexists. split; [reflexivity |].
    split; [rewrite (set_length _ _ _ S2); congruence |].
    intros j d Hj.
    rewrite (nth_set _ _ _ j d S2), (nth_set _ _ _ j d S1), R1, F.
    unfold subarray_from. rewrite nth_skipn.
    unfold firstPart in *.
    split_tests; simpl; try lia; try reflexivity;
      try (apply F0; lia); f_equal; lia.
  - eexists. split; [reflexivity |].
    split; [congruence |].
    intros j d Hj. rewrite (nth_set _ _ _ j d S1), F.
    unfold firstPart in *.
    split_tests; simpl; try lia; try reflexivity; apply F0; lia.
Qed.

(** [process] with a frame available and room for it in the channel:
    it returns [true]; the first [frameSize] samples of the channel are
    the samples from [readIndex] on, around the end of the buffer, and
    the rest of the channel is as it was. *)
Lemma process_frame_data (frameSize : nat) this
      (channel : list sample) (channels : list (list sample))
      (rest : Outputs sample) :
  wf this ->
  frameSize <= availableSamples this ->
  frameSize <= length channel ->
  exists c' : list sample,
    process_frame zero frameSize ((channel :: channels) :: rest) this =
    (Normal true, (c' :: channels) :: rest,
     {| bufferSize := bufferSize this;
        buffer := buffer this;
        writeIndex := writeIndex this;
        readIndex := (readIndex this + frameSize) mod bufferSize this;
        availableSamples := availableSamples this - frameSize |}) /\
    length c' = length channel /\
    forall (k : nat) (d : sample),
      nth k c' d =
      if k <? frameSize
      then nth ((readIndex this + k) mod bufferSize this) (buffer this) d
      else nth k channel d.
Proof.
  intros (P & L & W & R & A) Hf Hc.
  unfold process_frame. simpl.
  destruct (Nat.leb_spec frameSize (availableSamples this)); [| lia].
  set (firstPart := Nat.min frameSize (bufferSize this - readIndex this)).
  set (src1 := subarray (buffer this) (readIndex this)
                        (readIndex this + firstPart)).
  assert (F1 : length src1 = firstPart).
  { unfold src1, subarray. rewrite length_firstn, length_skipn.
    unfold firstPart. lia. }
  assert (N1 : forall k d, k < firstPart ->
                           nth k src1 d = nth (readIndex this + k)
                                              (buffer this) d).
  { intros k d Hk. unfold src1, subarray. rewrite nth_firstn, nth_skipn.
    destruct (Nat.ltb_spec k (readIndex this + firstPart - readIndex this));
      [reflexivity | lia]. }
  assert (S1 : set channel src1 0 =
               Normal (firstn 0 channel ++ src1
                         ++ skipn (0 + length src1) channel)).
  { apply set_fits. rewrite F1. unfold firstPart. lia. }
  rewrite S1.
  pose proof (set_length _ _ _ S1) as L1.
  match type of S1 with
  | set _ _ _ = Normal ?c => set (c1 := c) in *
  end.
  destruct (Nat.ltb_spec firstPart frameSize) as [Hw|Hw].
  - set (src2 := subarray (buffer this) 0 (frameSize - firstPart)).
    assert (F2 : length src2 = frameSize - firstPart).
    { unfold src2, subarray. simpl. rewrite length_firstn. lia. }
    assert (N2 : forall k d, k < frameSize - firstPart ->
                             nth k src2 d = nth k (buffer this) d).
    { intros k d Hk. unfold src2, subarray. simpl. rewrite nth_firstn.
      destruct (Nat.ltb_spec k (frameSize - firstPart - 0));
        [reflexivity | lia]. }
    assert (S2 : set c1 src2 firstPart =
                 Normal (firstn firstPart c1 ++ src2
                           ++ skipn (firstPart + length src2) c1)).
    { apply set_fits. rewrite F2, L1. lia. }
    rewrite S2. simpl.
    eexists. split; [reflexivity |].
    split; [rewrite (set_length _ _ _ S2); exact L1 |].
    intros k d.
    rewrite (nth_set _ _ _ k d S2), (nth_set _ _ _ k d S1), F1, F2.
    destruct (Nat.ltb_spec k frameSize) as [Hk|Hk].
    + rewrite mod_wrap by lia.
      unfold firstPart in *.
      split_tests; simpl; try lia;
        first [rewrite N2 by lia; f_equal; lia
              | rewrite Nat.sub_0_r; apply N1; lia].
    + unfold firstPart in *.
      split_tests; simpl; try lia; reflexivity.
  - simpl. eexists. split; [reflexivity |].
    split; [exact L1 |].
    intros k d.
    rewrite (nth_set _ _ _ k d S1), F1.
    destruct (Nat.ltb_spec k frameSize) as [Hk|Hk].
    + rewrite mod_wrap by lia.
      unfold firstPart in *.
      split_tests; simpl; try lia.
      rewrite Nat.sub_0_r. apply N1. lia.
    + unfold firstPart in *.
      split_tests; simpl; try lia; reflexivity.
Qed.

(** A read with a frame available returns; the frame holds the samples
    from [readIndex] on, around the end. *)
Lemma pull_nth (frameSize : nat) this :
  wf this ->
  frameSize <= availableSamples this ->
  exists frame : list sample,
    pull zero frameSize this =
    (Normal frame,
     {| bufferSize := bufferSize this;
        buffer := buffer this;
        writeIndex := writeIndex this;
        readIndex := (readIndex this + frameSize) mod bufferSize this;
        availableSamples := availableSamples this - frameSize |}) /\
    length frame = frameSize /\
    forall (k : nat) (d : sample),
      k < frameSize ->
      nth k frame d =
      nth ((readIndex this + k) mod bufferSize this) (buffer this) d.
Proof.
  intros Wf Hf.
  destruct (process_frame_data (repeat zero frameSize) [] [] Wf Hf)
    as (c' & E & Lc & N).
  { rewrite repeat_length. lia. }
  unfold pull. rewrite E. simpl.
  exists c'. split; [reflexivity |].
  split; [rewrite Lc; apply repeat_length |].
  intros k d Hk. rewrite N.
  destruct (Nat.ltb_spec k frameSize); [reflexivity | lia].
Qed.

Lemma nth_contents (i : nat) (d : sample) this :
  wf this ->
  i < availableSamples this ->
  nth i (contents zero this) d =
  nth ((readIndex this + i) mod bufferSize this) (buffer this) d.
Proof.
  intros (P & L & _) Hi. unfold contents.
  rewrite (nth_indep _ d
             (nth ((readIndex this + 0) mod bufferSize this)
                  (buffer this) zero))
    by (rewrite length_map, length_seq; exact Hi).
  rewrite (map_nth (fun i => nth ((readIndex this + i) mod bufferSize this)
                                 (buffer this) zero)).
  rewrite seq_nth by exact Hi. simpl.
  apply nth_indep. rewrite L. apply Nat.mod_upper_bound. lia.
Qed.

Lemma length_contents this :
  length (contents zero this) = availableSamples this.
Proof. unfold contents. now rewrite length_map, length_seq. Qed.

(** *** The processor follows the queue *)

Lemma create_represents (size : nat) :
  0 < size -> represents zero [] (create zero size).
Proof.
  intro P. unfold represents. split; [exact (create_wf zero P) |].
  simpl. rewrite Nat.Div0.mod_0_l. auto.
Qed.

Lemma write_represents q chunk this :
  represents zero q this ->
  length q + length chunk <= bufferSize this ->
  exists this',
    onmessage (audio_data chunk) this = (Normal tt, this') /\
    represents zero (q ++ chunk) this'.
Proof.
  intros (Wf & A & W & C) Fit.
  pose proof Wf as (P & L & Wlt & R & Ale).
  destruct (onmessage_nth chunk Wf ltac:(lia)) as (b & E & Lb & N).
  eexists. split; [exact E |].
  assert (Wf' : wf (snd (onmessage (audio_data chunk) this)))
    by (apply onmessage_wf; exact Wf).
  rewrite E in Wf'. simpl in Wf'.
  unfold represents. split; [exact Wf' |]. simpl.
  rewrite length_app. split; [lia |]. split.
  - rewrite W, A. rewrite Nat.min_l by lia.
    rewrite Nat.Div0.add_mod_idemp_l. f_equal. lia.
  - apply (nth_ext _ _ zero zero).
    + rewrite length_contents, length_app. simpl. lia.
    + rewrite length_contents. simpl. intros i Hi.
      rewrite (nth_contents zero Wf') by (simpl; exact Hi). simpl.
      rewrite N by (apply Nat.mod_upper_bound; lia).
      destruct (Nat.ltb_spec i (length q)) as [Hq|Hq].
      * rewrite app_nth1 by exact Hq.
        rewrite <- C, (@nth_contents i zero _ Wf) by lia.
        rewrite W, A.
        rewrite (@mod_wrap (readIndex this + i) _),
                (@mod_wrap (readIndex this + length q) _) by lia.
        split_tests; simpl; try lia; reflexivity.
      * rewrite app_nth2 by lia.
        rewrite W, A.
        rewrite (@mod_wrap (readIndex this + i) _),
                (@mod_wrap (readIndex this + length q) _) by lia.
        split_tests; simpl; try lia; f_equal; lia.
Qed.

Lemma read_represents (frameSize : nat) q this :
  represents zero q this ->
  frameSize <= length q ->
  exists this',
    pull zero frameSize this = (Normal (firstn frameSize q), this') /\
    represents zero (skipn frameSize q) this'.
Proof.
  intros (Wf & A & W & C) Hf.
  pose proof Wf as (P & L & Wlt & R & Ale).
  destruct (pull_nth (frameSize := frameSize) Wf ltac:(lia)) as (frame & E & Lf & N).
  assert (Wf' : wf (snd (process_frame zero frameSize
                                       [[repeat zero frameSize]] this)))
    by (apply process_frame_wf; exact Wf).
  assert (Es : snd (pull zero frameSize this) =
               snd (process_frame zero frameSize
                                  [[repeat zero frameSize]] this)).
  { unfold pull.
    destruct (process_frame zero frameSize [[repeat zero frameSize]] this)
      as [[[v|e] o] this1]; reflexivity. }
  rewrite <- Es, E in Wf'. simpl in Wf'.
  assert (Fr : frame = firstn frameSize q).
  { apply (nth_ext _ _ zero zero).
    - rewrite Lf, length_firstn. lia.
    - rewrite Lf. intros k Hk. rewrite (N k zero Hk), nth_firstn.
      destruct (Nat.ltb_spec k frameSize); [| lia].
      rewrite <- C. symmetry. apply nth_contents; [exact Wf | lia]. }
  eexists. split; [rewrite E, Fr; reflexivity |].
  unfold represents. split; [exact Wf' |]. simpl.
  rewrite length_skipn. split; [lia |]. split.
  - rewrite W, Nat.Div0.add_mod_idemp_l. f_equal. lia.
  - apply (nth_ext _ _ zero zero).
    + rewrite length_contents, length_skipn. simpl. lia.
    + rewrite length_contents. simpl. intros i Hi.
      rewrite (nth_contents zero Wf') by (simpl; exact Hi). simpl.
      rewrite nth_skipn, <- C.
      rewrite (@nth_contents (frameSize + i) zero _ Wf) by lia.
      rewrite Nat.Div0.add_mod_idemp_l. f_equal. f_equal. lia.
Qed.

Lemma serve_represents (frameSize size : nat) (ops : list (Op sample)) :
  forall q this (frames : list (list sample)) (q' : list sample),
    represents zero q this ->
    bufferSize this = size ->
    queue zero frameSize size ops q = Some (frames, q') ->
    exists this',
      serve zero frameSize ops this = (Normal frames, this') /\
      represents zero q' this' /\
      bufferSize this' = size.
Proof.
  induction ops as [|[chunk|] ops IH]; intros q this frames q' Rep B Q.
  - simpl in Q. inversion Q; subst. exists this. auto.
  - simpl in Q.
    destruct (Nat.leb_spec (length q + length chunk) size) as [Fit|];
      [| discriminate Q].
    destruct (write_represents chunk Rep) as (this1 & E & Rep1); [lia |].
    assert (B1 : bufferSize this1 = size).
    { destruct (onmessage_frame (audio_data chunk) this) as [_ B1].
      rewrite E in B1. simpl in B1. congruence. }
    destruct (IH _ this1 frames q' Rep1 B1 Q) as (this' & S & Rep' & B').
    exists this'. simpl. rewrite E. auto.
  - simpl in Q.
    destruct (Nat.leb_spec frameSize (length q)) as [Hf|Hf].
    + destruct (queue zero frameSize size ops (skipn frameSize q))
        as [[fs q1]|] eqn:Q1; [| discriminate Q].
      inversion Q; subst.
      destruct (read_represents Rep Hf) as (this1 & E & Rep1).
      assert (B1 : bufferSize this1 = bufferSize this).
      { destruct (pull_nth (frameSize := frameSize) (proj1 Rep))
          as (f & E' & _).
        - destruct Rep as (_ & A & _). lia.
        - rewrite E in E'. inversion E'; subst. reflexivity. }
      destruct (IH _ this1 fs q' Rep1 B1 Q1) as (this' & S & Rep' & B').
      exists this'. simpl. rewrite E, S. auto.
    + destruct (queue zero frameSize size ops q) as [[fs q1]|] eqn:Q1;
        [| discriminate Q].
      inversion Q; subst.
      destruct (IH _ this fs q' Rep eq_refl Q1) as (this' & S & Rep' & B').
      exists this'. simpl.
      rewrite pull_underrun by (destruct Rep as (_ & A & _); lia).
      rewrite S. auto.
Qed.

Lemma handle_wf (frameSize : nat) (e : Event sample) this :
  wf this ->
  wf (handle zero frameSize e this) /\
  bufferSize (handle zero frameSize e this) = bufferSize this.
Proof.
  intro Wf. destruct e as [data|outputs]; simpl.
  - split; [apply onmessage_wf; exact Wf |].
    apply (onmessage_frame data this).
  - split; [apply process_frame_wf; exact Wf |].
    unfold process_frame.
    destruct (nth_error outputs 0) as [output|]; [| reflexivity].
    destruct (nth_error output 0) as [channel|]; [| reflexivity].
    destruct (_ <=? _); [| reflexivity].
    destruct (set channel _ _) as [c1|e]; [| reflexivity].
    destruct (_ <? _); [destruct (set c1 _ _) |]; reflexivity.
Qed.

(** A throwing write has changed neither an index nor the count. *)
Lemma onmessage_throw_keeps (data : MessageData sample) this (e : Error) :
  fst (onmessage data this) = Throw e ->
  writeIndex (snd (onmessage data this)) = writeIndex this /\
  availableSamples (snd (onmessage data this)) = availableSamples this.
Proof.
  unfold onmessage.
  destruct (String.eqb _ _); [| discriminate].
  destruct (set (buffer this) _ _) as [b1|e1]; [| split; reflexivity].
  destruct (_ <? _).
  - destruct (set b1 _ _); [discriminate | split; reflexivity].
  - discriminate.
Qed.

(** *** Writes, then reads *)

Lemma empty_represents this :
  wf this ->
  availableSamples this = 0 ->
  readIndex this = writeIndex this ->
  represents zero [] this.
Proof.
  intros Wf A E. pose proof Wf as (P & L & W & R & _).
  unfold represents, contents. rewrite A, Nat.add_0_r. simpl.
  rewrite Nat.mod_small by exact R. auto.
Qed.

Lemma deliver_represents (chunks : list (list sample)) :
  forall q this,
    represents zero q this ->
    length q + length (concat chunks) <= bufferSize this ->
    fst (deliver chunks this) = map (fun _ => Normal tt) chunks /\
    represents zero (q ++ concat chunks) (snd (deliver chunks this)) /\
    bufferSize (snd (deliver chunks this)) = bufferSize this.
Proof.
  induction chunks as [|chunk chunks IH]; intros q this Rep Fit.
  - simpl. rewrite app_nil_r. auto.
  - simpl in Fit. rewrite length_app in Fit.
    destruct (write_represents chunk Rep) as (this1 & E & Rep1); [lia |].
    assert (B1 : bufferSize this1 = bufferSize this).
    { destruct (onmessage_frame (audio_data chunk) this) as [_ B1].
      rewrite E in B1. exact B1. }
    destruct (IH (q ++ chunk) this1 Rep1) as (C & Rep2 & B2).
    { rewrite length_app, B1. lia. }
    simpl. rewrite E.
    destruct (deliver chunks this1) as [cs this2]. simpl in *.
    rewrite <- app_assoc in Rep2.
    split; [now rewrite C |]. split; [exact Rep2 | congruence].
Qed.

Lemma pulls_represents (frameSize k : nat) :
  forall q this,
    represents zero q this ->
    k * frameSize <= length q ->
    exists this',
      pulls zero frameSize k this =
      (Normal (firstn (k * frameSize) q), this') /\
      represents zero (skipn (k * frameSize) q) this'.
Proof.
  induction k as [|k IH]; intros q this Rep Fit.
  - exists this. simpl. auto.
  - simpl in Fit.
    destruct (read_represents (frameSize := frameSize) Rep)
      as (this1 & E1 & Rep1); [lia |].
    destruct (IH _ this1 Rep1) as (this2 & E2 & Rep2).
    { rewrite length_skipn. lia. }
    exists this2. simpl. rewrite E1, E2. split.
    + now rewrite firstn_add.
    + rewrite skipn_skipn in Rep2.
      now rewrite (Nat.add_comm frameSize (k * frameSize)).
Qed.

(** C6, amended. Take a well-formed processor which is empty and whose
    read position is its write position, anywhere in the buffer (the
    fresh processor is one). After writes whose total length [T] is at most
    [bufferSize], all of which return: [k <= T / frameSize] reads
    return the first [k * frameSize] samples written, in order, also
    when the writes or the reads go around the end of the buffer; every
    further read returns silence, and the last [T mod frameSize]
    samples stay in the buffer. The reads return all that was written
    exactly when [frameSize] divides [T]. *)
Theorem drain_returns_whole_frames
        (frameSize : nat) (chunks : list (list sample)) this :
  wf this ->
  availableSamples this = 0 ->
  readIndex this = writeIndex this ->
  0 < frameSize ->
  length (concat chunks) <= bufferSize this ->
  fst (deliver chunks this) = map (fun _ => Normal tt) chunks /\
  (forall k,
      k <= length (concat chunks) / frameSize ->
      fst (pulls zero frameSize k (snd (deliver chunks this))) =
      Normal (firstn (k * frameSize) (concat chunks))) /\
  (forall j,
      fst (pulls zero frameSize
                 (j + length (concat chunks) / frameSize)
                 (snd (deliver chunks this))) =
      Normal (firstn (length (concat chunks) / frameSize * frameSize)
                     (concat chunks)
                ++ repeat zero (j * frameSize))) /\
  availableSamples
    (snd (pulls zero frameSize (length (concat chunks) / frameSize)
                (snd (deliver chunks this)))) =
  length (concat chunks) mod frameSize /\
  (length (concat chunks) mod frameSize = 0 ->
   fst (pulls zero frameSize (length (concat chunks) / frameSize)
              (snd (deliver chunks this))) =
   Normal (concat chunks)).
Proof.
  intros Wf A E F T.
  destruct (deliver_represents chunks (empty_represents Wf A E))
    as (C & Rep & _); [simpl; exact T |].
  simpl in Rep.
  set (data := concat chunks) in *.
  set (written := snd (deliver chunks this)) in *.
  pose proof (Nat.Div0.div_mod (length data) frameSize) as DM.
  pose proof (Nat.mod_upper_bound (length data) frameSize) as MU.
  set (n := length data / frameSize) in *.
  assert (K : forall k, k <= n ->
                        exists this',
                          pulls zero frameSize k written =
                          (Normal (firstn (k * frameSize) data), this') /\
                          represents zero (skipn (k * frameSize) data) this').
  { intros k Hk. apply pulls_represents; [exact Rep | nia]. }
  destruct (K n (le_n n)) as (drained & En & (_ & An & _)).
  rewrite length_skipn in An.
  split; [exact C |]. split; [| split; [| split]].
  - intros k Hk. destruct (K k Hk) as (this' & Ek & _). now rewrite Ek.
  - intro j.
    rewrite (pulls_then_silence zero n j written En) by (rewrite An; nia).
    reflexivity.
  - rewrite En. simpl. rewrite An. nia.
  - intro M. rewrite En. simpl. f_equal. apply firstn_all2. nia.
Qed.

(** *** Properties of the processor in use *)

(** X1. Whatever port messages and [process] calls a well-formed
    processor receives, with whatever outputs and whether they return
    or throw, it stays well formed: the buffer keeps its length, both
    indices stay below [bufferSize], [availableSamples] stays at most
    [bufferSize], and [bufferSize] never changes. *)
Theorem handle_all_keeps_wf (frameSize : nat) (es : list (Event sample)) this :
  wf this ->
  wf (handle_all zero frameSize es this) /\
  bufferSize (handle_all zero frameSize es this) = bufferSize this.
Proof.
  revert this. induction es as [|e es IH]; intros this Wf; simpl.
  - auto.
  - destruct (handle_wf frameSize e Wf) as [Wf1 B1].
    destruct (IH _ Wf1) as [Wf2 B2]. split; [exact Wf2 | congruence].
Qed.

(** X2. First in, first out. Take any run of writes and reads on a
    fresh processor in which every write fits (the samples buffered plus
    the chunk are at most [bufferSize]). Then no call throws and the
    reads return what they return on a plain queue: the samples written,
    in order and without loss, a frame at a time, also across the end
    of the buffer, and silence when less than a frame is buffered; what
    is left in the buffer is what is left in the queue. *)
Theorem serve_follows_queue
        (frameSize size : nat) (ops : list (Op sample))
        (frames : list (list sample)) (q : list sample) :
  0 < size ->
  queue zero frameSize size ops [] = Some (frames, q) ->
  exists this',
    serve zero frameSize ops (create zero size) = (Normal frames, this') /\
    contents zero this' = q /\
    availableSamples this' = length q.
Proof.
  intros P Q.
  destruct (serve_represents frameSize ops (create_represents P) eq_refl Q)
    as (this' & S & (_ & A & _ & C) & _).
  exists this'. auto.
Qed.

(** X3. [process] on a well-formed processor with an output channel of
    at least [frameSize] samples never throws and returns [true]. With
    at least [frameSize] samples available it writes to the start of
    the channel the [frameSize] samples the buffer holds from
    [readIndex] on, around the end of the buffer, and leaves the rest
    of the channel as it was, advances [readIndex] by [frameSize]
    modulo [bufferSize] and takes [frameSize] from [availableSamples];
    otherwise it zeroes the whole channel and changes nothing. The
    other channels and outputs are never written. *)
Theorem process_returns_frame (frameSize : nat) this
        (channel : list sample) (channels : list (list sample))
        (rest : Outputs sample) :
  wf this ->
  frameSize <= length channel ->
  exists (c' : list sample) (this' : t sample),
    process_frame zero frameSize ((channel :: channels) :: rest) this =
    (Normal true, (c' :: channels) :: rest, this') /\
    length c' = length channel /\
    if frameSize <=? availableSamples this
    then this' =
         {| bufferSize := bufferSize this;
            buffer := buffer this;
            writeIndex := writeIndex this;
            readIndex := (readIndex this + frameSize) mod bufferSize this;
            availableSamples := availableSamples this - frameSize |} /\
         firstn frameSize c' = firstn frameSize (contents zero this) /\
         skipn frameSize c' = skipn frameSize channel
    else this' = this /\ c' = repeat zero (length channel).
Proof.
  intros Wf Hc.
  destruct (Nat.leb_spec frameSize (availableSamples this)) as [Hf|Hf].
  - destruct (process_frame_data channel channels rest Wf Hf Hc)
      as (c' & E & Lc & N).
    exists c'. eexists. split; [exact E |]. split; [exact Lc |].
    split; [reflexivity |]. split.
    + apply (nth_ext _ _ zero zero).
      * rewrite !length_firstn, length_contents. lia.
      * rewrite length_firstn. intros k Hk.
        rewrite !nth_firstn.
        destruct (Nat.ltb_spec k frameSize); [| reflexivity].
        rewrite N.
        destruct (Nat.ltb_spec k frameSize); [| lia].
        symmetry. apply nth_contents; [exact Wf | lia].
    + apply (nth_ext _ _ zero zero).
      * rewrite !length_skipn. lia.
      * intros k Hk. rewrite !nth_skipn, N.
        destruct (Nat.ltb_spec (frameSize + k) frameSize);
          [lia | reflexivity].
  - exists (repeat zero (length channel)), this.
    rewrite process_frame_underrun by exact Hf.
    rewrite repeat_length. auto.
Qed.

(** X4. A frame is buffered but the output channel is shorter than
    [frameSize]: [process] throws a RangeError and consumes nothing,
    every field of the processor is as before. *)
Theorem process_short_channel_throws (frameSize : nat) this
        (channel : list sample) (channels : list (list sample))
        (rest : Outputs sample) :
  wf this ->
  frameSize <= availableSamples this ->
  length channel < frameSize ->
  fst (fst (process_frame zero frameSize
                          ((channel :: channels) :: rest) this)) =
  Throw RangeError /\
  snd (process_frame zero frameSize ((channel :: channels) :: rest) this) =
  this.
Proof.
  intros (P & L & W & R & A) Hf Hc.
  unfold process_frame. simpl.
  destruct (Nat.leb_spec frameSize (availableSamples this)); [| lia].
  set (firstPart := Nat.min frameSize (bufferSize this - readIndex this)).
  set (src1 := subarray (buffer this) (readIndex this)
                        (readIndex this + firstPart)).
  assert (F1 : length src1 = firstPart).
  { unfold src1, subarray. rewrite length_firstn, length_skipn.
    unfold firstPart. lia. }
  destruct (Nat.le_gt_cases firstPart (length channel)) as [Fits|Over].
  - assert (S1 : set channel src1 0 =
                 Normal (firstn 0 channel ++ src1
                           ++ skipn (0 + length src1) channel)).
    { apply set_fits. rewrite F1. lia. }
    rewrite S1. pose proof (set_length _ _ _ S1) as L1.
    destruct (Nat.ltb_spec firstPart frameSize) as [Hw|Hw]; [| lia].
    rewrite set_overflows; [split; reflexivity |].
    rewrite L1. unfold subarray. simpl. rewrite length_firstn. lia.
  - rewrite set_overflows; [split; reflexivity |].
    rewrite F1. lia.
Qed.

(** X5. A message that is not [audio-data], or an [audio-data] message
    without samples, returns and leaves a well-formed processor exactly
    as it was. *)
Theorem idle_message_changes_nothing (data : MessageData sample) this :
  wf this ->
  type data <> "audio-data"%string \/ samples data = [] ->
  onmessage data this = (Normal tt, this).
Proof.
  intros (P & L & W & R & A) H. unfold onmessage.
  destruct (String.eqb_spec (type data) "audio-data") as [T|T];
    [| reflexivity].
  destruct H as [H|H]; [contradiction |]. rewrite H. simpl.
  unfold set. simpl. rewrite Nat.add_0_r.
  destruct (Nat.ltb_spec (length (buffer this)) (writeIndex this)); [lia |].
  rewrite firstn_skipn, Nat.add_0_r, Nat.mod_small by exact W.
  rewrite Nat.min_l by exact A.
  destruct this; reflexivity.
Qed.

(** X6. On a well-formed processor a write throws exactly when the
    chunk is longer than [2 * bufferSize - writeIndex] (what is left
    after the copy up to the end of the buffer does not fit in the
    buffer), and the error is a RangeError; after a write that threw,
    [writeIndex], [readIndex] and [availableSamples] are as before. *)
Theorem write_throws_iff_oversize chunk this :
  wf this ->
  if 2 * bufferSize this - writeIndex this <? length chunk
  then fst (onmessage (audio_data chunk) this) = Throw RangeError /\
       writeIndex (snd (onmessage (audio_data chunk) this)) =
       writeIndex this /\
       readIndex (snd (onmessage (audio_data chunk) this)) =
       readIndex this /\
       availableSamples (snd (onmessage (audio_data chunk) this)) =
       availableSamples this
  else fst (onmessage (audio_data chunk) this) = Normal tt.
Proof.
  intro Wf. pose proof (onmessage_throws chunk Wf) as T.
  pose proof Wf as (P & L & W & _).
  destruct (Nat.ltb_spec (2 * bufferSize this - writeIndex this)
                         (length chunk)) as [Ho|Ho];
    destruct (Nat.ltb_spec (bufferSize this)
                           (length chunk
                            - (bufferSize this - writeIndex this)))
    as [Ho'|Ho']; try lia.
  - split; [exact T |].
    destruct (onmessage_throw_keeps _ _ T) as [Wk Ak].
    destruct (onmessage_frame (audio_data chunk) this) as [Rk _].
    auto.
  - exact T.
Qed.

(** X7. A write that returns has moved [writeIndex] forward by the
    length of the chunk modulo [bufferSize] and has added the length to
    [availableSamples], up to [bufferSize]; [readIndex] and
    [bufferSize] are as before. *)
Theorem returning_write_counts chunk this this' :
  onmessage (audio_data chunk) this = (Normal tt, this') ->
  writeIndex this' = (writeIndex this + length chunk) mod bufferSize this /\
  availableSamples this' =
  Nat.min (availableSamples this + length chunk) (bufferSize this) /\
  readIndex this' = readIndex this /\
  bufferSize this' = bufferSize this.
Proof.
  unfold onmessage. simpl.
  destruct (set (buffer this) _ _) as [b1|e]; [| discriminate].
  destruct (_ <? _).
  - destruct (set b1 _ _); intro H; inversion H; auto.
  - intro H; inversion H; auto.
Qed.

(** X8. [process] never writes to the buffer and never assigns
    [writeIndex] or [bufferSize], and it never adds to
    [availableSamples], whatever its outputs and its completion. *)
Theorem read_keeps_buffer (frameSize : nat) (outputs : Outputs sample) this :
  buffer (snd (process_frame zero frameSize outputs this)) = buffer this /\
  writeIndex (snd (process_frame zero frameSize outputs this)) =
  writeIndex this /\
  bufferSize (snd (process_frame zero frameSize outputs this)) =
  bufferSize this /\
  availableSamples (snd (process_frame zero frameSize outputs this))
  <= availableSamples this.
Proof.
  unfold process_frame.
  destruct (nth_error outputs 0) as [output|]; [| auto].
  destruct (nth_error output 0) as [channel|]; [| auto].
  destruct (_ <=? _); [| auto].
  destruct (set channel _ _) as [c1|e]; [| auto].
  destruct (_ <? _); [destruct (set c1 _ _) |]; simpl;
    repeat split; auto; lia.
Qed.

End Queue.

Local Open Scope Z_scope.

Lemma drain_returns_whole_frames_witness :
  fst (pulls 0 4 2
         (snd (deliver [[5; 6; 7]; [8; 9; 10; 11; 12]]
                 (snd (pull 0 4
                         (snd (onmessage (audio_data [1; 2; 3; 4])
                                 (create 0 8)))))))) =
  Normal [5; 6; 7; 8; 9; 10; 11; 12].
Proof.
  refine (proj1 (proj2
            (@drain_returns_whole_frames Z 0 4
               [[5; 6; 7]; [8; 9; 10; 11; 12]]
               (snd (pull 0 4
                       (snd (onmessage (audio_data [1; 2; 3; 4])
                               (create 0 8)))))
               _ eq_refl eq_refl
               (proj1 (Nat.ltb_lt 0 4) eq_refl)
               (proj1 (Nat.leb_le 8 8) eq_refl))) 2%nat
            (proj1 (Nat.leb_le 2 2) eq_refl)).
  unfold wf. simpl. repeat split; lia.
Defined.

Lemma handle_all_keeps_wf_witness :
  wf (handle_all 0 128
        [Message (audio_data (ramp 1 9601));
         Render [[repeat 0 128]];
         Message (audio_data (ramp 1 4802));
         Render [[repeat 0 64]]; Render []]
        (constructor 0)).
Proof.
  exact (proj1 (@handle_all_keeps_wf Z 0 128
                  [Message (audio_data (ramp 1 9601));
                   Render [[repeat 0 128]];
                   Message (audio_data (ramp 1 4802));
                   Render [[repeat 0 64]]; Render []]
                  (constructor 0)
                  (create_wf 0 (proj1 (Nat.ltb_lt 0 4800) eq_refl)))).
Defined.

Lemma serve_follows_queue_witness :
  exists this',
    serve 0 4 [Write (ramp 1 6); Read; Write (ramp 7 6); Read; Read; Read]
          (create 0 8) =
    (Normal [[1; 2; 3; 4]; [5; 6; 7; 8]; [9; 10; 11; 12]; [0; 0; 0; 0]],
     this') /\
    contents 0 this' = [] /\
    availableSamples this' = 0%nat.
Proof.
  exact (@serve_follows_queue Z 0 4 8
           [Write (ramp 1 6); Read; Write (ramp 7 6); Read; Read; Read]
           _ _ (proj1 (Nat.ltb_lt 0 8) eq_refl) eq_refl).
Defined.

Lemma process_returns_frame_witness :
  exists (c' : list Z) (this' : t Z),
    process 0 [[repeat 9 128]]
            (snd (onmessage (audio_data (ramp 1 200)) (constructor 0))) =
    (Normal true, [[c']], this') /\
    length c' = 128%nat.
Proof.
  destruct (@process_returns_frame Z 0 128
              (snd (onmessage (audio_data (ramp 1 200)) (constructor 0)))
              (repeat 9 128) [] []
              (onmessage_wf (audio_data (ramp 1 200))
                 (create_wf 0 (proj1 (Nat.ltb_lt 0 4800) eq_refl)))
              (proj1 (Nat.leb_le 128 128) eq_refl))
    as (c' & this' & E & L & _).
  exists c', this'. split; [exact E | exact L].
Defined.

Lemma process_short_channel_throws_witness :
  fst (fst (process 0 [[repeat 9 64]]
              (snd (onmessage (audio_data (ramp 1 200)) (constructor 0))))) =
  Throw RangeError.
Proof.
  exact (proj1 (@process_short_channel_throws Z 0 128
                  (snd (onmessage (audio_data (ramp 1 200)) (constructor 0)))
                  (repeat 9 64) [] []
                  (onmessage_wf (audio_data (ramp 1 200))
                     (create_wf 0 (proj1 (Nat.ltb_lt 0 4800) eq_refl)))
                  (proj1 (Nat.leb_le 128 200) eq_refl)
                  (proj1 (Nat.ltb_lt 64 128) eq_refl))).
Defined.

Lemma idle_message_changes_nothing_witness :
  onmessage (audio_data []) (constructor 0) = (Normal tt, constructor 0).
Proof.
  exact (@idle_message_changes_nothing Z (audio_data []) (constructor 0)
           (create_wf 0 (proj1 (Nat.ltb_lt 0 4800) eq_refl))
           (or_intror eq_refl)).
Defined.

Lemma write_throws_iff_oversize_witness :
  fst (onmessage (audio_data (ramp 1 9601)) (constructor 0)) =
  Throw RangeError.
Proof.
  pose proof (@write_throws_iff_oversize Z (ramp 1 9601) (constructor 0)
                (create_wf 0 (proj1 (Nat.ltb_lt 0 4800) eq_refl))) as H.
  exact (proj1 H).
Defined.

Lemma returning_write_counts_witness :
  availableSamples (snd (onmessage (audio_data (ramp 1 12)) (create 0 10))) =
  Nat.min (0 + 12) 10.
Proof.
  exact (proj1 (proj2
           (@returning_write_counts Z (ramp 1 12) (create 0 10) _ eq_refl))).
Defined.

End NativeAudioProcessorQueue.


(** * Properties of the formatting profiles *)

Module FormattingProfilesFacts.
Import FormattingProfiles.
Local Open Scope string_scope.

Lemma find_profile_some (profiles : list FormattingProfile)
      (profileId : string) (p : FormattingProfile) :
  find_profile profiles profileId = Some p ->
  In p profiles /\ id p = profileId.
Proof.
  unfold find_profile. intro H. apply find_some in H.
  destruct H as [I E]. split; [exact I | now apply String.eqb_eq].
Qed.

Lemma find_profile_none (profiles : list FormattingProfile)
      (profileId : string) :
  find_profile profiles profileId = None <->
  forall p, In p profiles -> id p <> profileId.
Proof.
  unfold find_profile. split.
  - intros H p I E. apply (find_none _ _ H) in I.
    apply String.eqb_neq in I. contradiction.
  - induction profiles as [|q profiles IH]; intro H; simpl.
    + reflexivity.
    + destruct (String.eqb_spec (id q) profileId) as [E|E].
      * exfalso. apply (H q); [left; reflexivity | exact E].
      * apply IH. intros p I. apply H. right. exact I.
Qed.

Lemma find_profile_app (l1 l2 : list FormattingProfile) (profileId : string) :
  find_profile (l1 ++ l2) profileId =
  match find_profile l1 profileId with
  | Some p => Some p
  | None => find_profile l2 profileId
  end.
Proof.
  unfold find_profile. induction l1 as [|q l1 IH]; simpl.
  - reflexivity.
  - destruct (String.eqb (id q) profileId); [reflexivity | exact IH].
Qed.

(** Each built-in profile is the first one with its id. *)
Lemma builtin_found (b : FormattingProfile) :
  In b DEFAULT_PROFILES -> find_profile DEFAULT_PROFILES (id b) = Some b.
Proof.
  intro I. simpl in I.
  repeat (destruct I as [I|I]; [subst b; vm_compute; reflexivity |]).
  contradiction.
Qed.

Section Detect.
Variable toLowerCase : string -> string.

Lemma detect_url_some (u : string) (entries : list (string * string))
      (p : FormattingProfile) :
  detect_url u entries = Some p ->
  exists e, In e entries /\ includes u (fst e) = true /\
            find_profile DEFAULT_PROFILES (snd e) = Some p.
Proof.
  induction entries as [|[pat pid] entries IH]; cbn [detect_url]; intro H.
  - discriminate H.
  - destruct (includes u pat) eqn:Inc.
    + destruct (find_profile DEFAULT_PROFILES pid) as [q|] eqn:F.
      * inversion H; subst. exists (pat, pid).
        split; [left; reflexivity | split; [exact Inc | exact F]].
      * destruct (IH H) as (e & I & M & Fe). exists e.
        split; [right; exact I | split; [exact M | exact Fe]].
    + destruct (IH H) as (e & I & M & Fe). exists e.
      split; [right; exact I | split; [exact M | exact Fe]].
Qed.

(** When every mapped id names a built-in profile, the loop over the
    URL patterns returns the profile of the first pattern the URL
    includes. *)
Lemma detect_url_first (u : string) (entries : list (string * string)) :
  (forall e, In e entries -> find_profile DEFAULT_PROFILES (snd e) <> None) ->
  detect_url u entries =
  match find (fun e => includes u (fst e)) entries with
  | Some e => find_profile DEFAULT_PROFILES (snd e)
  | None => None
  end.
Proof.
  induction entries as [|[pat pid] entries IH];
    cbn [detect_url find fst snd]; intro H.
  - reflexivity.
  - destruct (includes u pat).
    + destruct (find_profile DEFAULT_PROFILES pid) as [q|] eqn:F.
      * simpl. exact (eq_sym F).
      * exfalso. apply (H (pat, pid)); [left; reflexivity | exact F].
    + apply IH. intros e I. apply H. right. exact I.
Qed.

Lemma detect_identifiers_some (profileId : string) (appPatterns : list string)
      (identifiers : list string) (p : FormattingProfile) :
  detect_identifiers toLowerCase profileId appPatterns identifiers = Some p ->
  find_profile DEFAULT_PROFILES profileId = Some p.
Proof.
  induction identifiers as [|i identifiers IH];
    cbn [detect_identifiers]; intro H.
  - discriminate H.
  - destruct (existsb _ appPatterns).
    + destruct (find_profile DEFAULT_PROFILES profileId) as [q|] eqn:F.
      * exact H.
      * apply IH in H. congruence.
    + exact (IH H).
Qed.

Lemma detect_apps_some (entries : list (string * list string))
      (identifiers : list string) (p : FormattingProfile) :
  detect_apps toLowerCase entries identifiers = Some p ->
  exists e, In e entries /\
            find_profile DEFAULT_PROFILES (fst e) = Some p.
Proof.
  induction entries as [|[pid pats] entries IH];
    cbn [detect_apps]; intro H.
  - discriminate H.
  - destruct (detect_identifiers toLowerCase pid pats identifiers)
      as [q|] eqn:D.
    + inversion H; subst. exists (pid, pats).
      split; [left; reflexivity |].
      exact (detect_identifiers_some _ _ _ D).
    + destruct (IH H) as (e & I & F). exists e.
      split; [right; exact I | exact F].
Qed.

(** The ids the two tables map to are detectable ones. *)
Lemma mapped_ids_detectable :
  (forall e, In e URL_PROFILE_MAPPINGS -> In (snd e) detectable) /\
  (forall e, In e APP_PROFILE_MAPPINGS -> In (fst e) detectable).
Proof.
  split; intros e I; simpl in I;
    repeat (destruct I as [I|I]; [subst e; simpl; tauto |]);
    contradiction.
Qed.

(** X17. Detection only ever proposes a built-in profile, and only one
    of [email-pro], [chat], [code], [terminal], [document] and [notes]:
    whatever the window, it never proposes [default] or [email-casual],
    nor anything that is not in [DEFAULT_PROFILES]. *)
Theorem detection_proposes_builtin
        (windowInfo : ActiveWindowInfo) (p : FormattingProfile) :
  detectProfileForApp toLowerCase windowInfo = Some p ->
  In p DEFAULT_PROFILES /\
  In (id p) detectable /\
  id p <> "default" /\ id p <> "email-casual".
Proof.
  intro H.
  assert (F : exists pid, In pid detectable /\
                          find_profile DEFAULT_PROFILES pid = Some p).
  { unfold detectProfileForApp in H.
    destruct (match url windowInfo with
              | Some EmptyString => None
              | Some u => detect_url u URL_PROFILE_MAPPINGS
              | None => None
              end) as [q|] eqn:U.
    - inversion H; subst q.
      destruct (url windowInfo) as [[|c u]|]; try discriminate U.
      destruct (detect_url_some _ _ U) as (e & I & _ & Fe).
      exists (snd e). split; [| exact Fe].
      exact (proj1 mapped_ids_detectable e I).
    - destruct (detect_apps toLowerCase APP_PROFILE_MAPPINGS
                            (appIdentifiers windowInfo)) as [q|] eqn:A.
      + inversion H; subst q.
        destruct (detect_apps_some _ _ A) as (e & I & Fe).
        exists (fst e). split; [| exact Fe].
        exact (proj2 mapped_ids_detectable e I).
      + cbv zeta in H.
        destruct (_ || _ || _ || _).
        * exists "code". split; [simpl; tauto | exact H].
        * destruct (_ || _ || _).
          -- exists "terminal". split; [simpl; tauto | exact H].
          -- destruct (_ || _ || _); [| discriminate H].
             exists "chat". split; [simpl; tauto | exact H]. }
  destruct F as (pid & D & F).
  destruct (find_profile_some _ _ F) as [I E]. subst pid.
  split; [exact I |]. split; [exact D |].
  split; intro N; rewrite N in D; simpl in D;
    repeat (destruct D as [D|D]; [discriminate D |]); contradiction.
Qed.

(** X18. The URL decides first. When the window has a non-empty URL
    that includes a pattern of [URL_PROFILE_MAPPINGS], the profile
    detected is the built-in profile of the first such pattern in the
    order of the table, whatever the application is. *)
Theorem url_decides_first
        (windowInfo : ActiveWindowInfo) (u : string) (e : string * string) :
  url windowInfo = Some u ->
  u <> "" ->
  find (fun e => includes u (fst e)) URL_PROFILE_MAPPINGS = Some e ->
  exists p,
    detectProfileForApp toLowerCase windowInfo = Some p /\
    In p DEFAULT_PROFILES /\
    id p = snd e.
Proof.
  intros U N M.
  assert (All : forall e, In e URL_PROFILE_MAPPINGS ->
                          find_profile DEFAULT_PROFILES (snd e) <> None).
  { intros e' I. simpl in I.
    repeat (destruct I as [I|I]; [subst e'; vm_compute; discriminate |]).
    contradiction. }
  pose proof (detect_url_first u URL_PROFILE_MAPPINGS All) as D.
  rewrite M in D.
  destruct (find_profile DEFAULT_PROFILES (snd e)) as [p|] eqn:F.
  - exists p. destruct (find_profile_some _ _ F) as [I E].
    split; [| auto].
    unfold detectProfileForApp. rewrite U.
    destruct u as [|c u]; [contradiction |].
    rewrite D. reflexivity.
  - exfalso. apply find_some in M. apply (All e (proj1 M)). exact F.
Qed.

End Detect.

(** X19. The built-in profiles come first. Whatever the custom
    profiles, [getProfileById] returns each built-in profile for its
    own id, so a custom profile with the id of a built-in one is never
    returned; for any other id it returns the first custom profile with
    that id. A profile returned has the id asked for, and [null] is
    returned only when no profile has it. *)
Theorem builtin_profiles_first
        (profileId : string) (customProfiles : list FormattingProfile) :
  (forall b, In b DEFAULT_PROFILES ->
             getProfileById (id b) customProfiles = Some b) /\
  ((forall b, In b DEFAULT_PROFILES -> id b <> profileId) ->
   getProfileById profileId customProfiles =
   find_profile customProfiles profileId) /\
  match getProfileById profileId customProfiles with
  | Some p => id p = profileId /\
              (In p DEFAULT_PROFILES \/ In p customProfiles)
  | None => forall p, In p DEFAULT_PROFILES \/ In p customProfiles ->
                      id p <> profileId
  end.
Proof.
  unfold getProfileById. split; [| split].
  - intros b I. rewrite find_profile_app, (builtin_found I). reflexivity.
  - intro H. rewrite find_profile_app.
    now rewrite (proj2 (find_profile_none DEFAULT_PROFILES profileId) H).
  - destruct (find_profile (DEFAULT_PROFILES ++ customProfiles) profileId)
      as [p|] eqn:F.
    + destruct (find_profile_some _ _ F) as [I E].
      split; [exact E |]. apply in_app_or. exact I.
    + intros p I. apply (proj1 (find_profile_none _ _) F).
      apply in_or_app. exact I.
Qed.

Lemma detection_proposes_builtin_witness :
  In (id profile_code) detectable.
Proof.
  exact (proj1 (proj2
           (@detection_proposes_builtin (fun s => s)
              {| window_title := "Pull requests";
                 app_name := "Google Chrome";
                 bundle_id := Some "com.google.Chrome";
                 process_name := None;
                 url := Some "https://github.com/pulls" |}
              profile_code eq_refl))).
Defined.

Lemma url_decides_first_witness :
  exists p,
    detectProfileForApp (fun s => s)
      {| window_title := "Pull requests";
         app_name := "Google Chrome";
         bundle_id := Some "com.google.Chrome";
         process_name := None;
         url := Some "https://github.com/pulls" |} = Some p /\
    In p DEFAULT_PROFILES /\
    id p = "code".
Proof.
  refine (@url_decides_first (fun s => s)
            {| window_title := "Pull requests";
               app_name := "Google Chrome";
               bundle_id := Some "com.google.Chrome";
               process_name := None;
               url := Some "https://github.com/pulls" |}
            "https://github.com/pulls" ("github.com", "code")
            eq_refl _ eq_refl).
  intro H. discriminate H.
Defined.

End FormattingProfilesFacts.
